(** * Branch-and-bound letter-cover solver: a shallow embedding

    This development embeds [find_best_cover] and its inner [dfs] from
    [src/project/brute_force_letter_solver.py] and states the properties
    of the specification over that embedding.  It also embeds the
    functions around them, [is_valid_word], [filter_words] and [solve],
    and [pool_to_markdown] from [src/project/morph_cot.py], which renders
    the same letter pools.

    Modelling choices.
    - Python [int] is [Z]; Python [str] is [string]; a character is [ascii].
    - [collections.Counter] is a finite map [gmap ascii Z]; reading a
      missing key yields 0 and does not insert it.
    - Python [float] is the primitive binary64 [float]; the wall clock is
      an oracle [clock : nat -> float] giving the successive readings of
      [time.time()], and the state counts how many readings were taken.
    - Operations that can raise in Python (list indexing, [list.pop]) return
      [option]; [None] stands for the raised [IndexError].
    - The mutable objects of one call ([best], [chosen], the caller's
      [letter_counts]) are threaded through an explicit [state]. *)

From Stdlib Require Import ZArith Ascii String Floats Lia Sorting.Sorted.
From stdpp Require Import gmap strings list fin_maps.

Local Open Scope Z_scope.

(** ** Counters *)

Module Counter.

(** [c[ch]] on a Counter, and [c.get(ch, 0)]: both read 0 for a missing key. *)
Definition count_of (c : gmap ascii Z) (ch : ascii) : Z := default 0 (c !! ch).

(** [Counter(w)]: one increment per character of [w], left to right. *)
Definition Counter_of (w : string) : gmap ascii Z :=
  fold_left (fun acc ch => <[ch := count_of acc ch + 1]> acc)
            (list_ascii_of_string w) ∅.

(** [sum(c.values())] *)
Definition sum_values (c : gmap ascii Z) : Z :=
  map_fold (fun _ v acc => acc + v) 0 c.

(** [for ch, cnt in wc.items(): c[ch] -= cnt] *)
Definition subtract (c wc : gmap ascii Z) : gmap ascii Z :=
  map_fold (fun ch cnt acc => <[ch := count_of acc ch - cnt]> acc) c wc.

(** [all(c <= letter_counts[ch] for ch, c in wc.items())] (greedy seed) *)
Definition affordable_items (wc letter_counts : gmap ascii Z) : bool :=
  forallb (fun '(ch, c) => c <=? count_of letter_counts ch) (map_to_list wc).

(** [all(wc[ch] <= counts.get(ch, 0) for ch in wc)] (inside [dfs]) *)
Definition affordable_keys (wc counts : gmap ascii Z) : bool :=
  forallb (fun ch => count_of wc ch <=? count_of counts ch) (map_to_list wc).*1.

(** Every stored count is non-negative. *)
Definition nonneg (c : gmap ascii Z) : Prop := forall ch, 0 <= count_of c ch.

(** The same, as a test over the stored entries. *)
Definition nonnegb (c : gmap ascii Z) : bool :=
  forallb (fun '(_, v) => 0 <=? v) (map_to_list c).

End Counter.
Import Counter.

(** [len(w)] *)
Definition len (w : string) : Z := Z.of_nat (String.length w).

(** [sum(len(w) for w in ws)] *)
Definition sum_len (ws : list string) : Z := foldr (fun w acc => len w + acc) 0 ws.

(** Number of occurrences of the letter [ch] in the word [w]. *)
Definition occ (ch : ascii) (w : string) : Z :=
  Z.of_nat (count_occ Ascii.ascii_dec (list_ascii_of_string w) ch).

(** Number of occurrences of [ch] over all the words of [ws]. *)
Definition occurrences (ch : ascii) (ws : list string) : Z :=
  foldr (fun w acc => occ ch w + acc) 0 ws.

(** ** Candidate ordering: [sorted(words, key=len, reverse=True)]

    Python's [sorted] is stable, also under [reverse=True].  The runtime's
    algorithm is not part of this repository; it is modelled by a stable
    insertion sort, and [sorted_unique] below shows that any stable
    descending sort returns the same list. *)

Fixpoint insert_by_len (w : string) (l : list string) : list string :=
  match l with
  | [] => [w]
  | x :: l' => if len w <? len x then x :: insert_by_len w l' else w :: l
  end.

Definition sorted_by_len_desc (words : list string) : list string :=
  foldr insert_by_len [] words.

(** [a] may stand before [b] in a list sorted by descending length. *)
Definition longer_first (a b : string) : Prop := len b <= len a.

(** The words of [l] of length [k], in the order they have in [l]. *)
Definition of_len (k : Z) (l : list string) : list string :=
  filter (fun w => len w = k) l.

(** [l'] is a stable sort of [l] by descending length: sorted, and words of
    equal length keep the relative order they have in [l]. *)
Definition stable_sort_of (l l' : list string) : Prop :=
  StronglySorted longer_first l' /\ forall k, of_len k l' = of_len k l.

(** ** Suffix sums: the [rem_len] table *)

(** [l[i] = v]; Python raises [IndexError] out of range. *)
Definition list_set (l : list Z) (i : nat) (v : Z) : option (list Z) :=
  if decide (i < length l)%nat then Some (<[i := v]> l) else None.

(** [for i in range(k - 1, -1, -1): rem_len[i] = rem_len[i + 1] + len(words[i])] *)
Fixpoint fill_rem_len (words : list string) (k : nat) (rem_len : list Z)
  : option (list Z) :=
  match k with
  | O => Some rem_len
  | S i =>
      r ← rem_len !! S i;
      w ← words !! i;
      rem_len' ← list_set rem_len i (r + len w);
      fill_rem_len words i rem_len'
  end.

(** [rem_len = [0] * (n + 1)] followed by the backward scan. *)
Definition build_rem_len (words : list string) : option (list Z) :=
  let n := length words in
  fill_rem_len words n (replicate (S n) 0).

(** ** Search state *)

Record state := mkState {
  best_used : Z;                  (* best["used"] *)
  best_subset : list string;      (* best["subset"] *)
  chosen : list string;           (* the list object [chosen0], shared down the DFS *)
  letter_counts : gmap ascii Z;   (* the caller's Counter object *)
  arg_words : list string;        (* the caller's list object *)
  reads : nat;                    (* number of [time.time()] calls so far *)
  history : list Z                (* ghost: every value written to best["used"], oldest first *)
}.

(** One more clock reading has been taken. *)
Definition tick (s : state) : state :=
  mkState (best_used s) (best_subset s) (chosen s) (letter_counts s)
          (arg_words s) (S (reads s)) (history s).

(** [time.time()] *)
Definition time_time (clock : nat -> float) (s : state) : float * state :=
  (clock (reads s), tick s).

(** [best["used"] = used; best["subset"] = chosen.copy()] *)
Definition record_best (used : Z) (s : state) : state :=
  mkState used (chosen s) (chosen s) (letter_counts s)
          (arg_words s) (reads s) (history s ++ [used]).

(** [chosen.append(w)] *)
Definition push (w : string) (s : state) : state :=
  mkState (best_used s) (best_subset s) (chosen s ++ [w]) (letter_counts s)
          (arg_words s) (reads s) (history s).

(** [chosen.pop()]; raises on an empty list. *)
Definition pop (s : state) : option state :=
  match chosen s with
  | [] => None
  | _ :: _ =>
      Some (mkState (best_used s) (best_subset s) (removelast (chosen s))
                    (letter_counts s) (arg_words s) (reads s) (history s))
  end.

(** ** The depth-first search *)

(** [for i in range(idx, n): body]: the loop runs [k = n - idx] times, with
    [i] counting up from [idx]; [body k' i] is the iteration at index [i],
    after which [k'] indices remain. *)
Definition for_range (body : nat -> nat -> state -> option state) :=
  fix loop (k i : nat) (s : state) {struct k} : option state :=
    match k with
    | O => Some s
    | S k' => s' ← body k' i s; loop k' (S i) s'
    end.

Section Dfs.

(** Variables captured by the closure [dfs]. *)
Variable clock : nat -> float.
Variable deadline : float.
Variable words : list string.
Variable rem_len : list Z.

(** The body of [for i in range(idx, n)], with [rec] the recursive call. *)
Definition try_word
    (rec : nat -> gmap ascii Z -> Z -> state -> option state)
    (counts : gmap ascii Z) (used : Z) (i : nat) (s : state) : option state :=
  w ← words !! i;
  if sum_values counts <? len w then Some s
  else
    let wc := Counter_of w in
    if affordable_keys wc counts then
      let new_counts := subtract counts wc in
      s1 ← rec (S i) new_counts (used + len w) (push w s);
      pop s1
    else Some s.

(** [dfs(idx, counts, chosen, used)].  The first argument [m] is the
    length of [range(idx, n)], that is [n - idx]; it is the measure that
    makes the recursion structural. *)
Fixpoint dfs (m idx : nat) (counts : gmap ascii Z) (used : Z) (s : state)
  {struct m} : option state :=
  let '(now, s) := time_time clock s in
  if PrimFloat.ltb deadline now then Some s
  else
    bound ← rem_len !! idx;
    if used + bound <=? best_used s then Some s
    else
      let s := if best_used s <? used then record_best used s else s in
      for_range (fun k' => try_word (dfs k') counts used) m idx s.

(** The variant of the loop body without the length test
    [if len(w) > sum(counts.values()): continue]. *)
Definition try_word_no_precheck
    (rec : nat -> gmap ascii Z -> Z -> state -> option state)
    (counts : gmap ascii Z) (used : Z) (i : nat) (s : state) : option state :=
  w ← words !! i;
  let wc := Counter_of w in
  if affordable_keys wc counts then
    let new_counts := subtract counts wc in
    s1 ← rec (S i) new_counts (used + len w) (push w s);
    pop s1
  else Some s.

(** [dfs] with the length test removed, everything else unchanged. *)
Fixpoint dfs_no_precheck (m idx : nat) (counts : gmap ascii Z) (used : Z)
    (s : state) {struct m} : option state :=
  let '(now, s) := time_time clock s in
  if PrimFloat.ltb deadline now then Some s
  else
    bound ← rem_len !! idx;
    if used + bound <=? best_used s then Some s
    else
      let s := if best_used s <? used then record_best used s else s in
      for_range (fun k' => try_word_no_precheck (dfs_no_precheck k') counts used)
                m idx s.

End Dfs.

(** ** Greedy seed *)

(** [for w in words: ... break] over the sorted list: the first word
    affordable from [letter_counts] becomes the best, is pushed on the
    search stack, and its letters are removed from [letter_counts]. *)
Fixpoint greedy_seed (ws : list string) (s : state) : state :=
  match ws with
  | [] => s
  | w :: ws' =>
      let wc := Counter_of w in
      if affordable_items wc (letter_counts s) then
        mkState (len w) [w] [w] (subtract (letter_counts s) wc)
                (arg_words s) (reads s) (history s ++ [len w])
      else greedy_seed ws' s
  end.

(** ** [find_best_cover] *)

(** The body after [words = sorted(...)]: seed, table, search. *)
Definition search (clock : nat -> float) (deadline : float)
    (words : list string) (s0 : state) : option state :=
  let n := length words in
  let s1 := greedy_seed words s0 in
  rem_len ← build_rem_len words;
  dfs clock deadline words rem_len n 0 (letter_counts s1) (best_used s1) s1.

(** The state in which the body starts: [best = {"used": 0, "subset": []}],
    [chosen0 = []], one clock reading taken for the deadline. *)
Definition initial_state (words : list string) (letter_counts : gmap ascii Z) : state :=
  mkState 0 [] [] letter_counts words 1 [0].

(** The whole call, returning the final state of every object involved. *)
Definition find_best_cover_run (clock : nat -> float)
    (words : list string) (letter_counts : gmap ascii Z) (timeout : float)
  : option state :=
  let deadline := PrimFloat.add (clock 0%nat) timeout in
  let words' := sorted_by_len_desc words in
  search clock deadline words' (initial_state words letter_counts).

(** [return best["subset"], best["used"]] *)
Definition find_best_cover (clock : nat -> float)
    (words : list string) (letter_counts : gmap ascii Z) (timeout : float)
  : option (list string * Z) :=
  s ← find_best_cover_run clock words letter_counts timeout;
  Some (best_subset s, best_used s).

(** [find_best_cover] over the variant search without the length test. *)
Definition search_no_precheck (clock : nat -> float) (deadline : float)
    (words : list string) (s0 : state) : option state :=
  let n := length words in
  let s1 := greedy_seed words s0 in
  rem_len ← build_rem_len words;
  dfs_no_precheck clock deadline words rem_len n 0
                  (letter_counts s1) (best_used s1) s1.

Definition find_best_cover_no_precheck (clock : nat -> float)
    (words : list string) (letter_counts : gmap ascii Z) (timeout : float)
  : option (list string * Z) :=
  let deadline := PrimFloat.add (clock 0%nat) timeout in
  let words' := sorted_by_len_desc words in
  s ← search_no_precheck clock deadline words' (initial_state words letter_counts);
  Some (best_subset s, best_used s).

(** The greedy-seed result: what [best] holds when the seed loop ends. *)
Definition seed_result (words : list string) (letter_counts : gmap ascii Z)
  : list string * Z :=
  let s := greedy_seed (sorted_by_len_desc words) (initial_state words letter_counts) in
  (best_subset s, best_used s).

(** What [rem_len] must hold: entry [i] is the total length of the words
    at index [i] and after, for every [i] from 0 to [n]. *)
Definition is_rem_len (words : list string) (t : list Z) : Prop :=
  length t = S (length words) /\
  forall i, (i <= length words)%nat -> t !! i = Some (sum_len (drop i words)).

(** The objects a search step must hand back as it found them: the search
    stack (one pop per push) and the caller's two arguments. *)
Definition unchanged (s s' : state) : Prop :=
  chosen s' = chosen s /\ letter_counts s' = letter_counts s /\
  arg_words s' = arg_words s.

(** The word the greedy seed picks: the first one of the sorted list that
    is affordable from the pool as the caller passed it. *)
Definition seed_word (ws : list string) (letter_counts : gmap ascii Z)
  : option string :=
  List.find (fun w => affordable_items (Counter_of w) letter_counts) ws.

(** What the seed puts on the search stack before the DFS starts. *)
Definition seed_list (words : list string) (letter_counts : gmap ascii Z)
  : list string :=
  match seed_word (sorted_by_len_desc words) letter_counts with
  | Some w => [w]
  | None => []
  end.

(** The contract of the upstream filter: no pool count is negative, and
    every candidate has at least [MIN_WORD_LEN = 2] letters and is buildable
    on its own from the pool. *)
Definition well_formed (words : list string) (letter_counts : gmap ascii Z) : bool :=
  nonnegb letter_counts &&
  forallb (fun w => (2 <=? len w) && affordable_items (Counter_of w) letter_counts)
          words.

(** A property of the best record and of the log of its writes, read off a state. *)
Definition BestOf (Best : Z -> list string -> list Z -> Prop) (s : state) : Prop :=
  Best (best_used s) (best_subset s) (history s).

(** Two clocks for concrete runs: one that stands still, and one that has
    advanced by a second at every reading after the first. *)
Definition frozen_clock : nat -> float := fun _ => 0%float.
Definition ticking_clock : nat -> float :=
  fun k => match k with O => 0%float | S _ => 1%float end.

(** ** The dictionary filter and the entry point [solve] *)

(** [MIN_WORD_LEN] and [TIMEOUT_SEC] *)
Definition MIN_WORD_LEN : Z := 2.
Definition TIMEOUT_SEC : float := 15%float.

(** [ALLOWED_TWO_LETTERS] *)
Definition ALLOWED_TWO_LETTERS : gset string :=
  list_to_set
    ["AA";"AB";"AD";"AE";"AG";"AH";"AI";"AL";"AM";"AN";"AR";"AS";"AT";"AW";"AX";
     "AY";"BA";"BE";"BI";"BO";"BY";"DA";"DE";"DO";"ED";"EF";"EH";"EL";"EM";"EN";
     "ER";"ES";"ET";"EW";"EX";"FA";"FE";"GO";"GU";"HA";"HE";"HI";"HM";"HO";"ID";
     "IF";"IN";"IS";"IT";"JA";"JO";"KA";"KI";"LA";"LI";"LO";"MA";"ME";"MI";"MM";
     "MO";"MU";"MY";"NA";"NE";"NO";"NU";"OD";"OE";"OF";"OH";"OI";"OK";"OM";"ON";
     "OO";"OP";"OR";"OS";"OU";"OW";"OX";"OY";"PA";"PE";"PI";"PO";"QI";"RE";"SH";
     "SI";"SO";"TA";"TE";"TI";"TO";"UH";"UM";"UN";"UP";"UR";"US";"UT";"WE";"WO";
     "XI";"XU";"YA";"YE";"YO";"YU";"ZA"]%string.

(** [is_valid_word]: [_ENCHANT_DICT] is either [None] or a spell-checking
    dictionary, of which only its [check] method is used. *)
Definition is_valid_word (enchant_dict : option (string -> bool)) (word : string)
  : bool :=
  match enchant_dict with
  | Some check => check word
  | None => true
  end.

(** One iteration of the loop of [filter_words] over the list [can_build]. *)
Definition filter_step (enchant_dict : option (string -> bool))
    (letter_counts : gmap ascii Z) (can_build : list string) (w : string)
  : list string :=
  if len w <? MIN_WORD_LEN then can_build
  else if (len w =? 2) && bool_decide (w ∉ ALLOWED_TWO_LETTERS) then can_build
  else
    let wc := Counter_of w in
    if affordable_keys wc letter_counts && is_valid_word enchant_dict w
    then can_build ++ [w]
    else can_build.

(** [filter_words(words, letter_counts)] *)
Definition filter_words (enchant_dict : option (string -> bool))
    (words : list string) (letter_counts : gmap ascii Z) : list string :=
  fold_left (filter_step enchant_dict letter_counts) words [].

(** [str.upper()] on strings of ASCII characters: the lower-case letters
    move to upper case, every other character stays.  Python's [upper] also
    maps letters outside ASCII and can change the length of the string; the
    statements about [solve] below are about the upper-cased letters and use
    no property of [upper]. *)
Definition upper_char (c : ascii) : ascii :=
  if Ascii.leb "a" c && Ascii.leb c "z"
  then ascii_of_nat (nat_of_ascii c - 32)
  else c.

Fixpoint upper (s : string) : string :=
  match s with
  | EmptyString => EmptyString
  | String c s' => String (upper_char c) (upper s')
  end.

(** [solve(letters, ...)], with [dictionary] the list [load_dictionary]
    returned; the call of [find_best_cover] leaves the timeout at its
    default. *)
Definition solve (clock : nat -> float) (enchant_dict : option (string -> bool))
    (dictionary : list string) (letters : string) : option (list string * Z) :=
  let letters := upper letters in
  let letter_counts := Counter_of letters in
  let words := dictionary in
  let candidates := filter_words enchant_dict words letter_counts in
  r ← find_best_cover clock candidates letter_counts TIMEOUT_SEC;
  let unused := len letters - r.2 in
  Some (r.1, unused).

(** The test [filter_words] applies to one word, in one piece. *)
Definition passes_filter (enchant_dict : option (string -> bool))
    (letter_counts : gmap ascii Z) (w : string) : bool :=
  negb (len w <? MIN_WORD_LEN) &&
  negb ((len w =? 2) && bool_decide (w ∉ ALLOWED_TWO_LETTERS)) &&
  (affordable_keys (Counter_of w) letter_counts && is_valid_word enchant_dict w).

(** [w] can be built from the pool: every letter that occurs in [w] occurs
    in it at most as often as the pool has it. *)
Definition buildable (w : string) (counts : gmap ascii Z) : Prop :=
  forall ch, 0 < occ ch w -> occ ch w <= count_of counts ch.

(** A selection [l] of words fits a pool when no letter occurs in it more
    often than the pool has it. *)
Definition fits (l : list string) (counts : gmap ascii Z) : Prop :=
  forall ch, occurrences ch l <= count_of counts ch.

(** ** Rendering a pool: [pool_to_markdown] of [morph_cot.py] *)

(** [sorted(counts)]: the keys of a Counter in ascending order of code
    point; the keys being distinct, every sorting algorithm returns this
    list. *)
Fixpoint insert_char (c : ascii) (l : list ascii) : list ascii :=
  match l with
  | [] => [c]
  | x :: l' =>
      if (N_of_ascii c <? N_of_ascii x)%N then c :: l else x :: insert_char c l'
  end.

Definition sorted_keys (counts : gmap ascii Z) : list ascii :=
  foldr insert_char [] (map_to_list counts).*1.

(** The two pieces a letter can give: [ch] and [f"~~{ch}~~"]. *)
Definition plain (ch : ascii) : string := String ch EmptyString.
Definition struck (ch : ascii) : string := ("~~" ++ String ch "~~")%string.

(** [for _ in range(counts[ch])]: [n] iterations, each appending one piece
    and using up one strike when there is one left. *)
Fixpoint strike_loop (n : nat) (ch : ascii) (pieces : list string)
    (strikes : gmap ascii Z) : list string * gmap ascii Z :=
  match n with
  | O => (pieces, strikes)
  | S n' =>
      if bool_decide (count_of strikes ch <> 0)
      then strike_loop n' ch (pieces ++ [struck ch])
                       (<[ch := count_of strikes ch - 1]> strikes)
      else strike_loop n' ch (pieces ++ [plain ch]) strikes
  end.

(** The list [pieces] when the outer loop [for ch in sorted(counts)] ends;
    [highlight] is a sequence of characters or [None]. *)
Definition pool_pieces (pool : gmap ascii Z) (highlight : option (list ascii))
  : list string :=
  let counts := pool in
  let strikes := Counter_of (string_of_list_ascii (default [] highlight)) in
  (fold_left
     (fun '(pieces, strikes) ch =>
        strike_loop (Z.to_nat (count_of counts ch)) ch pieces strikes)
     (sorted_keys counts) ([], strikes)).1.

(** [pool_to_markdown(pool, highlight)] *)
Definition pool_to_markdown (pool : gmap ascii Z) (highlight : option (list ascii))
  : string :=
  let joined := String.concat " " (pool_pieces pool highlight) in
  if String.eqb joined "" then "-- none --"%string else joined.

(** What one letter contributes to the rendering: as many copies as the
    pool has of it, of which the first [min(count, highlighted)] struck. *)
Definition letter_block (pool : gmap ascii Z) (highlight : list ascii) (ch : ascii)
  : list string :=
  let n := Z.to_nat (count_of pool ch) in
  let k := (n `min` count_occ Ascii.ascii_dec highlight ch)%nat in
  replicate k (struck ch) ++ replicate (n - k) (plain ch).

(** The state [s] with another list standing for the caller's word list. *)
Definition with_args (a : list string) (s : state) : state :=
  mkState (best_used s) (best_subset s) (chosen s) (letter_counts s)
          a (reads s) (history s).

(** ** The search under the interpreter's recursion limit

    [dfs] calls itself once per word it puts on the stack, and every call
    takes one frame of the interpreter.  [dfs_limited] is the same function
    with the number [frames] of nested calls of [dfs] the interpreter still
    allows made explicit: a call for which no frame is left raises
    [RecursionError], and like every exception here it is caught nowhere. *)



Section DfsLimited.

Variable clock : nat -> float.
Variable deadline : float.
Variable words : list string.
Variable rem_len : list Z.



End DfsLimited.




(** ** Sample runs *)

Example run_cat :
  find_best_cover frozen_clock ["CAT"; "AT"; "CA"; "A"; "T"; "C"]%string
                  (Counter_of "CAT") 15%float
  = Some (["CAT"]%string, 3).
Proof. vm_compute. reflexivity. Qed.

Example run_no_word :
  find_best_cover frozen_clock ["CAT"; "DOG"]%string (Counter_of "Z") 15%float
  = Some ([], 0).
Proof. vm_compute. reflexivity. Qed.

(** ** Facts about counters *)

Section CounterFacts.
Implicit Types (c wc : gmap ascii Z) (ch : ascii).

Lemma count_of_empty ch : count_of ∅ ch = 0.
Proof. unfold count_of. by rewrite lookup_empty. Qed.

Lemma count_of_insert c ch ch' v :
  count_of (<[ch := v]> c) ch' = if decide (ch = ch') then v else count_of c ch'.
Proof. unfold count_of. rewrite lookup_insert. by case_decide. Qed.

Lemma count_of_Some c ch v : c !! ch = Some v -> count_of c ch = v.
Proof. unfold count_of. by intros ->. Qed.

Lemma count_of_None c ch : c !! ch = None -> count_of c ch = 0.
Proof. unfold count_of. by intros ->. Qed.

(** Subtraction is pointwise. *)
Lemma count_of_subtract c wc ch :
  count_of (subtract c wc) ch = count_of c ch - count_of wc ch.
Proof.
  unfold subtract. revert ch.
  apply (map_fold_weak_ind
           (fun r m => forall ch, count_of r ch = count_of c ch - count_of m ch)).
  - intros ch. rewrite count_of_empty. lia.
  - intros i x m r Hi IH ch. rewrite !count_of_insert.
    destruct (decide (i = ch)) as [->|Hne].
    + rewrite IH, (count_of_None m ch) by done. lia.
    + apply IH.
Qed.

(** The two affordability tests of the source compute the same thing. *)
Lemma affordable_items_spec wc c :
  affordable_items wc c = true <->
  (forall ch v, wc !! ch = Some v -> v <= count_of c ch).
Proof.
  unfold affordable_items. rewrite forallb_forall. split.
  - intros H ch v Hv.
    specialize (H (ch, v)). simpl in H. apply Z.leb_le, H.
    apply list_elem_of_In. by apply elem_of_map_to_list.
  - intros H [ch v] Hin. apply Z.leb_le, H.
    apply list_elem_of_In in Hin. by apply elem_of_map_to_list in Hin.
Qed.

Lemma affordable_keys_items wc c : affordable_keys wc c = affordable_items wc c.
Proof.
  unfold affordable_keys, affordable_items.
  assert (Hl : forall p, p ∈ map_to_list wc -> count_of wc p.1 = p.2).
  { intros [ch v] Hin. apply elem_of_map_to_list in Hin. by apply count_of_Some. }
  induction (map_to_list wc) as [|[ch v] l IH]; [done|].
  pose proof (Hl (ch, v) ltac:(left)) as E. simpl in E.
  simpl. rewrite E. f_equal.
  apply IH. intros p Hp. apply Hl. by right.
Qed.

Lemma affordable_keys_spec wc c :
  affordable_keys wc c = true <->
  (forall ch v, wc !! ch = Some v -> v <= count_of c ch).
Proof. rewrite affordable_keys_items. apply affordable_items_spec. Qed.

(** [Counter(w)[ch]] is the number of occurrences of [ch] in [w]. *)
Lemma count_of_Counter_of (w : string) ch : count_of (Counter_of w) ch = occ ch w.
Proof.
  unfold Counter_of, occ.
  assert (G : forall l acc,
    count_of (fold_left (fun acc ch => <[ch := count_of acc ch + 1]> acc) l acc) ch
    = count_of acc ch + Z.of_nat (count_occ Ascii.ascii_dec l ch)).
  { induction l as [|a l IH]; intros acc.
    - simpl. lia.
    - cbn [fold_left count_occ]. rewrite IH, count_of_insert.
      destruct (decide (a = ch)) as [->|Hne].
      + destruct (Ascii.ascii_dec ch ch); [|done]. lia.
      + destruct (Ascii.ascii_dec a ch); [done|]. lia. }
  rewrite G, count_of_empty. lia.
Qed.

(** Every count of [Counter(w)] is non-negative. *)
Lemma Counter_of_nonneg (w : string) : nonneg (Counter_of w).
Proof.
  unfold Counter_of.
  assert (H : nonneg (∅ : gmap ascii Z)).
  { intros ch. by rewrite count_of_empty. }
  revert H. generalize (∅ : gmap ascii Z).
  induction (list_ascii_of_string w) as [|a l IH]; intros acc Hacc; [done|].
  simpl. apply IH. intros ch. rewrite count_of_insert.
  case_decide; [specialize (Hacc a); lia | apply Hacc].
Qed.

(** An affordable word is affordable letter by letter. *)
Lemma affordable_pointwise (w : string) c :
  nonneg c -> affordable_keys (Counter_of w) c = true ->
  forall ch, count_of (Counter_of w) ch <= count_of c ch.
Proof.
  intros Hc H ch. rewrite affordable_keys_spec in H.
  destruct (Counter_of w !! ch) as [v|] eqn:E.
  - rewrite (count_of_Some _ _ _ E). by apply H.
  - rewrite (count_of_None _ _ E). apply Hc.
Qed.

(** Removing an affordable word keeps the pool non-negative. *)
Lemma subtract_nonneg (w : string) c :
  nonneg c -> affordable_keys (Counter_of w) c = true ->
  nonneg (subtract c (Counter_of w)).
Proof.
  intros Hc H ch. rewrite count_of_subtract.
  pose proof (affordable_pointwise w c Hc H ch). lia.
Qed.

Lemma sum_values_empty : sum_values ∅ = 0.
Proof. unfold sum_values. by rewrite map_fold_empty. Qed.

Lemma sum_values_insert c ch v :
  c !! ch = None -> sum_values (<[ch := v]> c) = sum_values c + v.
Proof.
  intros H. unfold sum_values. rewrite map_fold_insert_L; [done| |done].
  intros. lia.
Qed.

Lemma sum_values_delete c ch v :
  c !! ch = Some v -> sum_values c = sum_values (delete ch c) + v.
Proof.
  intros H. rewrite <- (insert_delete_id c ch v) at 1 by done.
  apply sum_values_insert, lookup_delete_eq.
Qed.

Lemma sum_values_update c ch v :
  sum_values (<[ch := v]> c) = sum_values c - count_of c ch + v.
Proof.
  destruct (c !! ch) as [x|] eqn:E.
  - rewrite <- insert_delete_eq, sum_values_insert by apply lookup_delete_eq.
    rewrite (sum_values_delete c ch x E), (count_of_Some _ _ _ E). lia.
  - rewrite sum_values_insert, (count_of_None _ _ E) by done. lia.
Qed.

Lemma sum_values_nonneg c : nonneg c -> 0 <= sum_values c.
Proof.
  induction c as [|i x m Hi IH] using map_ind; intros Hc.
  - by rewrite sum_values_empty.
  - rewrite sum_values_insert by done.
    assert (0 <= x).
    { specialize (Hc i). by rewrite count_of_insert, decide_True in Hc. }
    assert (nonneg m).
    { intros ch. specialize (Hc ch). rewrite count_of_insert in Hc.
      case_decide; [subst; by rewrite count_of_None|done]. }
    specialize (IH H0). lia.
Qed.

(** [sum(Counter(w).values()) == len(w)] *)
Lemma sum_values_Counter_of (w : string) : sum_values (Counter_of w) = len w.
Proof.
  unfold Counter_of, len.
  assert (L : String.length w = length (list_ascii_of_string w)).
  { induction w as [|a w IH]; simpl; congruence. }
  rewrite L.
  assert (G : forall l acc,
    sum_values (fold_left (fun acc ch => <[ch := count_of acc ch + 1]> acc) l acc)
    = sum_values acc + Z.of_nat (length l)).
  { induction l as [|a l IH]; intros acc.
    - simpl. lia.
    - cbn [fold_left length]. rewrite IH, sum_values_update. lia. }
  rewrite G, sum_values_empty. lia.
Qed.

(** A counter dominated key by key has a smaller total. *)
Lemma sum_values_mono wc c :
  nonneg c -> (forall ch v, wc !! ch = Some v -> v <= count_of c ch) ->
  sum_values wc <= sum_values c.
Proof.
  revert c. induction wc as [|i x m Hi IH] using map_ind; intros c Hc H.
  - rewrite sum_values_empty. by apply sum_values_nonneg.
  - rewrite sum_values_insert by done.
    assert (Hx : x <= count_of c i) by (apply H; by rewrite lookup_insert_eq).
    assert (Hd : nonneg (delete i c)).
    { intros ch. unfold count_of. rewrite lookup_delete.
      case_decide; [done|apply Hc]. }
    assert (Hm : sum_values m <= sum_values (delete i c)).
    { apply IH; [done|]. intros ch v Hv.
      assert (i <> ch) by (intros ->; congruence).
      unfold count_of at 1. rewrite lookup_delete_ne by done.
      apply H. by rewrite lookup_insert_ne. }
    destruct (c !! i) as [y|] eqn:E.
    + rewrite (sum_values_delete c i y E).
      rewrite (count_of_Some _ _ _ E) in Hx. lia.
    + rewrite (count_of_None _ _ E) in Hx.
      rewrite delete_id in Hm by done. lia.
Qed.

Lemma nonnegb_spec c : nonnegb c = true <-> nonneg c.
Proof.
  unfold nonnegb, nonneg. rewrite forallb_forall. split.
  - intros H ch. destruct (c !! ch) as [v|] eqn:E.
    + rewrite (count_of_Some _ _ _ E). apply Z.leb_le.
      apply (H (ch, v)), list_elem_of_In. by apply elem_of_map_to_list.
    + by rewrite (count_of_None _ _ E).
  - intros H [ch v] Hin. apply Z.leb_le.
    apply list_elem_of_In, elem_of_map_to_list in Hin.
    specialize (H ch). by rewrite (count_of_Some _ _ _ Hin) in H.
Qed.

(** Soundness of the cheap length test: a word longer than what is left
    in a non-negative pool is not affordable. *)
Lemma length_check_sound (w : string) c :
  nonneg c -> sum_values c < len w -> affordable_keys (Counter_of w) c = false.
Proof.
  intros Hc Hlt. destruct (affordable_keys (Counter_of w) c) eqn:E; [|done].
  rewrite affordable_keys_spec in E.
  pose proof (sum_values_mono _ _ Hc E) as Hle.
  rewrite sum_values_Counter_of in Hle. lia.
Qed.

End CounterFacts.

(** ** The suffix-sum table *)

Lemma fill_rem_len_spec (words : list string) (k : nat) (t : list Z) :
  (k <= length words)%nat -> length t = S (length words) ->
  (forall j, (k <= j <= length words)%nat -> t !! j = Some (sum_len (drop j words))) ->
  exists t', fill_rem_len words k t = Some t' /\ is_rem_len words t'.
Proof.
  revert t. induction k as [|i IH]; intros t Hk Hlen Ht.
  - exists t. repeat split; [done|]. intros j Hj. apply Ht. lia.
  - simpl. rewrite (Ht (S i)) by lia. simpl.
    destruct (words !! i) as [w|] eqn:Ew; [|apply lookup_ge_None in Ew; lia].
    simpl. unfold list_set. rewrite decide_True by lia. simpl.
    apply IH; [lia | by rewrite length_insert |].
    intros j Hj. destruct (decide (j = i)) as [->|Hne].
    + rewrite list_lookup_insert_eq by lia. f_equal.
      rewrite (drop_S _ _ _ Ew). simpl. lia.
    + rewrite list_lookup_insert_ne by done. apply Ht. lia.
Qed.

(** The table construction never raises and yields the suffix sums. *)
Lemma build_rem_len_spec (words : list string) :
  exists t, build_rem_len words = Some t /\ is_rem_len words t.
Proof.
  unfold build_rem_len. apply fill_rem_len_spec; [lia | by rewrite length_replicate |].
  intros j Hj. assert (j = length words) as -> by lia.
  rewrite lookup_replicate_2 by lia. by rewrite drop_all.
Qed.

(** ** Proof rules for the search *)

Lemma unchanged_refl (s : state) : unchanged s s.
Proof. by repeat split. Qed.

Lemma unchanged_trans (s1 s2 s3 : state) :
  unchanged s1 s2 -> unchanged s2 s3 -> unchanged s1 s3.
Proof. unfold unchanged. intros (?&?&?) (?&?&?). repeat split; congruence. Qed.

(** Unfolding [dfs] once, whatever the measure. *)
Lemma dfs_unfold clock deadline words rem_len m idx counts used s :
  dfs clock deadline words rem_len m idx counts used s =
  let '(now, s) := time_time clock s in
  if PrimFloat.ltb deadline now then Some s
  else
    bound ← rem_len !! idx;
    if used + bound <=? best_used s then Some s
    else
      let s := if best_used s <? used then record_best used s else s in
      for_range (fun k' => try_word words (dfs clock deadline words rem_len k') counts used)
                m idx s.
Proof. destruct m; reflexivity. Qed.

Lemma dfs_no_precheck_unfold clock deadline words rem_len m idx counts used s :
  dfs_no_precheck clock deadline words rem_len m idx counts used s =
  let '(now, s) := time_time clock s in
  if PrimFloat.ltb deadline now then Some s
  else
    bound ← rem_len !! idx;
    if used + bound <=? best_used s then Some s
    else
      let s := if best_used s <? used then record_best used s else s in
      for_range (fun k' => try_word_no_precheck words
                             (dfs_no_precheck clock deadline words rem_len k') counts used)
                m idx s.
Proof. destruct m; reflexivity. Qed.

(** A loop invariant for [for i in range(idx, n)]. *)
Lemma for_range_inv (I : state -> Prop) (body : nat -> nat -> state -> option state)
    (n : nat) :
  forall k i s,
    (i + k = n)%nat ->
    (forall k' i' s, (i <= i')%nat -> (i' + S k' = n)%nat -> I s ->
                     exists s', body k' i' s = Some s' /\ I s') ->
    I s ->
    exists s', for_range body k i s = Some s' /\ I s'.
Proof.
  induction k as [|k IH]; intros i s Hik Hbody Hs.
  - exists s. by split.
  - simpl. destruct (Hbody k i s) as (s1 & -> & Hs1); [lia|lia|done|].
    simpl. apply IH; [lia| |done].
    intros k' i' s' Hi' Hk'. apply Hbody; lia.
Qed.

(** Two loops whose bodies agree compute the same state. *)
Lemma for_range_ext (body1 body2 : nat -> nat -> state -> option state) :
  forall k i s,
    (forall k' i' s', (k' < k)%nat -> body1 k' i' s' = body2 k' i' s') ->
    for_range body1 k i s = for_range body2 k i s.
Proof.
  induction k as [|k IH]; intros i s H; [done|].
  simpl. rewrite H by lia. destruct (body2 k i s) as [s1|]; [|done].
  simpl. apply IH. intros. apply H. lia.
Qed.

Section DfsRule.

Variable clock : nat -> float.
Variable deadline : float.
Variable words : list string.
Variable rem_len : list Z.
Hypothesis Htable : length rem_len = S (length words).

(** [Frame] relates the arguments of one [dfs] frame (index, pool, stack,
    letters used); [Best] constrains the best record and the log of its
    writes. *)
Variable Frame : nat -> gmap ascii Z -> list string -> Z -> Prop.
Variable Best : Z -> list string -> list Z -> Prop.

Hypothesis Frame_step : forall idx i counts path used w,
  Frame idx counts path used -> (idx <= i)%nat -> words !! i = Some w ->
  affordable_keys (Counter_of w) counts = true ->
  Frame (S i) (subtract counts (Counter_of w)) (path ++ [w]) (used + len w).

Hypothesis Best_record : forall idx counts path used u sub h,
  Frame idx counts path used -> Best u sub h -> u < used ->
  Best used path (h ++ [used]).

(** Every [dfs] call returns, restores the stack, leaves the arguments of
    the caller alone, and re-establishes [Best]. *)
Lemma dfs_rule : forall m idx counts used s,
  (idx + m = length words)%nat ->
  Frame idx counts (chosen s) used -> BestOf Best s ->
  exists s', dfs clock deadline words rem_len m idx counts used s = Some s' /\
             unchanged s s' /\ BestOf Best s'.
Proof.
  induction m as [m IH] using lt_wf_ind.
  intros idx counts used s Hm HF HB.
  rewrite dfs_unfold. unfold time_time.
  assert (H0 : unchanged s (tick s) /\ BestOf Best (tick s)) by done.
  assert (HF0 : Frame idx counts (chosen (tick s)) used) by done.
  revert H0 HF0. generalize (tick s). intros s0 H0 HF0.
  destruct (PrimFloat.ltb deadline (clock (reads s))); [by exists s0|].
  destruct (rem_len !! idx) as [bound|] eqn:Eb;
    [|apply lookup_ge_None in Eb; lia].
  cbn [mbind option_bind].
  destruct (used + bound <=? best_used s0); [by exists s0|].
  set (s1 := if best_used s0 <? used then _ else _).
  assert (H1 : unchanged s s1 /\ BestOf Best s1).
  { subst s1. destruct (best_used s0 <? used) eqn:E; [|done].
    destruct H0 as [Hu HB0]. split; [exact Hu|]. apply Z.ltb_lt in E.
    unfold BestOf. simpl. by eapply Best_record. }
  apply (for_range_inv (fun s' => unchanged s s' /\ BestOf Best s') _ (length words));
    [done| |done].
  intros k' i' t Hi' Hk' [Hu HBt].
  unfold try_word.
  destruct (words !! i') as [w|] eqn:Ew; [|apply lookup_ge_None in Ew; lia].
  cbn [mbind option_bind].
  destruct (sum_values counts <? len w); [by exists t|].
  destruct (affordable_keys (Counter_of w) counts) eqn:Ea; [|by exists t].
  destruct (IH k' ltac:(lia) (S i') (subtract counts (Counter_of w))
                (used + len w) (push w t)) as (t2 & -> & Hu2 & HB2).
  - lia.
  - simpl. destruct Hu as (-> & _). by apply (Frame_step idx).
  - done.
  - cbn [mbind option_bind]. unfold pop.
    destruct Hu2 as (Hc & Hl & Hw). simpl in Hc, Hl, Hw.
    rewrite Hc. destruct (chosen t ++ [w]) eqn:Ec.
    { by destruct (chosen t). }
    rewrite <- Ec, removelast_last. eexists. split; [done|].
    split; [|done]. destruct Hu as (?&?&?). repeat split; simpl; congruence.
Qed.

End DfsRule.

(** ** The greedy seed *)

Lemma sum_len_app (l1 l2 : list string) : sum_len (l1 ++ l2) = sum_len l1 + sum_len l2.
Proof. induction l1 as [|w l1 IH]; simpl; lia. Qed.

Lemma occurrences_app (ch : ascii) (l1 l2 : list string) :
  occurrences ch (l1 ++ l2) = occurrences ch l1 + occurrences ch l2.
Proof. induction l1 as [|w l1 IH]; simpl; lia. Qed.

Lemma len_nonneg (w : string) : 0 <= len w.
Proof. unfold len. lia. Qed.

(** The seed loop either leaves the state alone or records the seed word. *)
Lemma greedy_seed_spec (ws : list string) (s : state) :
  greedy_seed ws s =
  match seed_word ws (letter_counts s) with
  | None => s
  | Some w =>
      mkState (len w) [w] [w] (subtract (letter_counts s) (Counter_of w))
              (arg_words s) (reads s) (history s ++ [len w])
  end.
Proof.
  unfold seed_word. induction ws as [|w ws IH]; [done|].
  simpl. by destruct (affordable_items (Counter_of w) (letter_counts s)).
Qed.

Lemma seed_word_affordable (ws : list string) (lc : gmap ascii Z) (w : string) :
  seed_word ws lc = Some w ->
  w ∈ ws /\ affordable_keys (Counter_of w) lc = true.
Proof.
  unfold seed_word. intros H. apply find_some in H as [Hin Ha].
  rewrite affordable_keys_items. split; [by apply list_elem_of_In|done].
Qed.

(** The greedy-seed result is the first affordable word of the sorted list
    on its own, or nothing. *)
Lemma seed_result_spec (words : list string) (lc : gmap ascii Z) :
  seed_result words lc =
  match seed_word (sorted_by_len_desc words) lc with
  | Some w => ([w], len w)
  | None => ([], 0)
  end.
Proof.
  unfold seed_result. rewrite greedy_seed_spec. simpl.
  by destruct (seed_word _ _).
Qed.

Lemma greedy_seed_reads (ws : list string) (s : state) :
  reads (greedy_seed ws s) = reads s.
Proof. rewrite greedy_seed_spec. by destruct (seed_word _ _). Qed.

Lemma greedy_seed_arg_words (ws : list string) (s : state) :
  arg_words (greedy_seed ws s) = arg_words s.
Proof. rewrite greedy_seed_spec. by destruct (seed_word _ _). Qed.

(** A proof rule for the whole body: what holds of the seeded state and is
    kept by every search step holds on return, and the body always returns. *)
Lemma search_rule (clock : nat -> float) (deadline : float) (words : list string)
    (s0 : state)
    (Frame : nat -> gmap ascii Z -> list string -> Z -> Prop)
    (Best : Z -> list string -> list Z -> Prop) :
  (forall idx i counts path used w,
      Frame idx counts path used -> (idx <= i)%nat -> words !! i = Some w ->
      affordable_keys (Counter_of w) counts = true ->
      Frame (S i) (subtract counts (Counter_of w)) (path ++ [w]) (used + len w)) ->
  (forall idx counts path used u sub h,
      Frame idx counts path used -> Best u sub h -> u < used ->
      Best used path (h ++ [used])) ->
  Frame 0%nat (letter_counts (greedy_seed words s0)) (chosen (greedy_seed words s0))
        (best_used (greedy_seed words s0)) ->
  BestOf Best (greedy_seed words s0) ->
  exists s', search clock deadline words s0 = Some s' /\
             unchanged (greedy_seed words s0) s' /\ BestOf Best s'.
Proof.
  intros Hstep Hrec HF HB. unfold search.
  destruct (build_rem_len_spec words) as (t & -> & Hlen & _).
  cbn [mbind option_bind].
  by apply (dfs_rule clock deadline words t Hlen Frame Best Hstep Hrec).
Qed.

(** [find_best_cover] returns on every input: no index is out of range and
    no [pop] meets an empty stack. *)
Lemma find_best_cover_run_returns clock words lc timeout :
  exists s, find_best_cover_run clock words lc timeout = Some s /\
            unchanged (greedy_seed (sorted_by_len_desc words) (initial_state words lc)) s.
Proof.
  unfold find_best_cover_run.
  destruct (search_rule clock (PrimFloat.add (clock 0%nat) timeout)
              (sorted_by_len_desc words) (initial_state words lc)
              (fun _ _ _ _ => True) (fun _ _ _ => True)) as (s & Hs & Hu & _);
    try done.
  by exists s.
Qed.

Lemma find_best_cover_returns clock words lc timeout :
  exists r, find_best_cover clock words lc timeout = Some r.
Proof.
  unfold find_best_cover.
  destruct (find_best_cover_run_returns clock words lc timeout) as (s & -> & _).
  by eexists.
Qed.

(** ** Invariants of the returned solution *)

(** C4 (accounting invariant): on every input [find_best_cover] returns, and
    the integer it returns as second component is the sum of the lengths of
    the words of the returned subset. *)
Theorem find_best_cover_accounting clock words lc timeout :
  exists subset used,
    find_best_cover clock words lc timeout = Some (subset, used) /\
    used = sum_len subset.
Proof.
  unfold find_best_cover, find_best_cover_run.
  destruct (search_rule clock (PrimFloat.add (clock 0%nat) timeout)
              (sorted_by_len_desc words) (initial_state words lc)
              (fun _ _ path used => used = sum_len path)
              (fun u sub _ => u = sum_len sub)) as (s & -> & _ & HB).
  - intros idx i counts path used w -> _ _ _. rewrite sum_len_app. simpl. lia.
  - by intros idx counts path used u sub h -> _ _.
  - rewrite greedy_seed_spec. destruct (seed_word _ _); simpl; lia.
  - unfold BestOf. rewrite greedy_seed_spec. destruct (seed_word _ _); simpl; lia.
  - by exists (best_subset s), (best_used s).
Qed.

(** C3 (sub-multiset invariant): when no count of the pool is negative,
    [find_best_cover] returns a subset in which every letter occurs, summed
    over all its words, at most as often as in the pool the caller passed.
    The candidates need not even be buildable for this to hold. *)
Theorem find_best_cover_within_pool clock words lc timeout :
  nonnegb lc = true ->
  exists subset used,
    find_best_cover clock words lc timeout = Some (subset, used) /\
    forall ch, occurrences ch subset <= count_of lc ch.
Proof.
  intros Hlc. apply nonnegb_spec in Hlc.
  unfold find_best_cover, find_best_cover_run.
  destruct (search_rule clock (PrimFloat.add (clock 0%nat) timeout)
              (sorted_by_len_desc words) (initial_state words lc)
              (fun _ counts path _ =>
                 nonneg counts /\
                 forall ch, occurrences ch path + count_of counts ch = count_of lc ch)
              (fun _ sub _ => forall ch, occurrences ch sub <= count_of lc ch))
    as (s & -> & _ & HB).
  - intros idx i counts path used w [Hn Hocc] _ _ Ha. split.
    + by apply subtract_nonneg.
    + intros ch. rewrite occurrences_app, count_of_subtract, count_of_Counter_of.
      simpl. specialize (Hocc ch). lia.
  - intros idx counts path used u sub h [Hn Hocc] _ _ ch.
    specialize (Hn ch). specialize (Hocc ch). lia.
  - rewrite greedy_seed_spec. simpl.
    destruct (seed_word _ _) as [w|] eqn:E; simpl.
    + apply seed_word_affordable in E as [_ Ha]. split.
      * by apply subtract_nonneg.
      * intros ch. rewrite count_of_subtract, count_of_Counter_of. lia.
    + split; [done|]. intros ch. lia.
  - unfold BestOf. rewrite greedy_seed_spec. simpl.
    destruct (seed_word _ _) as [w|] eqn:E; simpl.
    + apply seed_word_affordable in E as [_ Ha]. intros ch.
      pose proof (affordable_pointwise w lc Hlc Ha ch) as Hp.
      rewrite count_of_Counter_of in Hp. lia.
    + intros ch. apply Hlc.
  - by exists (best_subset s), (best_used s).
Qed.

Lemma find_best_cover_within_pool_witness :
  nonnegb (Counter_of "CAT") = true /\
  exists subset used,
    find_best_cover frozen_clock ["AT"; "CAT"; "CA"]%string (Counter_of "CAT") 15%float
    = Some (subset, used) /\
    forall ch, occurrences ch subset <= count_of (Counter_of "CAT") ch.
Proof.
  split; [reflexivity|].
  apply (find_best_cover_within_pool frozen_clock ["AT"; "CAT"; "CA"]%string
           (Counter_of "CAT") 15%float).
  reflexivity.
Defined.

Lemma sorted_snoc (h : list Z) (u x : Z) :
  StronglySorted Z.le h -> last h = Some u -> u <= x ->
  StronglySorted Z.le (h ++ [x]).
Proof.
  induction h as [|a h IH]; intros Hs Hl Hx; [done|].
  apply StronglySorted_inv in Hs as [Hs Ha].
  destruct h as [|b h].
  - simpl in *. injection Hl as ->. repeat constructor. done.
  - change (last (a :: b :: h)) with (last (b :: h)) in Hl.
    simpl. constructor; [by apply IH|].
    rewrite Forall_forall in Ha.
    apply Forall_forall. intros y Hy.
    change (b :: h ++ [x]) with ((b :: h) ++ [x]) in Hy.
    apply elem_of_app in Hy as [Hy|Hy]; [by apply Ha|].
    apply list_elem_of_singleton in Hy as ->.
    assert (a <= u); [|lia].
    apply Ha. by apply last_Some_elem_of.
Qed.

(** C5 (monotonicity): the log of every value written to [best["used"]]
    during one call, from the initial 0 through the seed and every update
    made by the DFS, is in non-decreasing order, and it ends with the value
    the call returns. *)
Theorem best_used_never_decreases clock words lc timeout :
  exists s,
    find_best_cover_run clock words lc timeout = Some s /\
    StronglySorted Z.le (history s) /\
    head (history s) = Some 0 /\
    last (history s) = Some (best_used s).
Proof.
  unfold find_best_cover_run.
  destruct (search_rule clock (PrimFloat.add (clock 0%nat) timeout)
              (sorted_by_len_desc words) (initial_state words lc)
              (fun _ _ _ _ => True)
              (fun u _ h => StronglySorted Z.le h /\ head h = Some 0 /\ last h = Some u))
    as (s & -> & _ & HB).
  - done.
  - intros _ _ _ used u _ h _ (Hs & Hh & Hl) Hlt. split; [|split].
    + apply (sorted_snoc h u used); [done|done|lia].
    + destruct h; [done|]. done.
    + apply last_snoc.
  - done.
  - unfold BestOf. rewrite greedy_seed_spec.
    destruct (seed_word _ _) as [w|]; simpl.
    + pose proof (len_nonneg w). repeat constructor. done.
    + repeat constructor.
  - by exists s.
Qed.

(** ** Candidate ordering *)

Lemma insert_by_len_perm (w : string) (l : list string) :
  insert_by_len w l ≡ₚ w :: l.
Proof.
  induction l as [|x l IH]; [done|].
  simpl. destruct (len w <? len x); [|done].
  rewrite IH. apply Permutation_swap.
Qed.

Lemma sorted_by_len_desc_perm (words : list string) :
  sorted_by_len_desc words ≡ₚ words.
Proof.
  induction words as [|w l IH]; [done|].
  simpl. rewrite insert_by_len_perm. by f_equiv.
Qed.

Lemma elem_of_sorted_by_len_desc (w : string) (words : list string) :
  w ∈ sorted_by_len_desc words <-> w ∈ words.
Proof. by rewrite sorted_by_len_desc_perm. Qed.

Lemma insert_by_len_sorted (w : string) (l : list string) :
  StronglySorted longer_first l -> StronglySorted longer_first (insert_by_len w l).
Proof.
  induction l as [|x l IH]; intros Hs.
  - repeat constructor.
  - simpl. destruct (len w <? len x) eqn:E.
    + apply StronglySorted_inv in Hs as [Hs Hx].
      constructor; [by apply IH|].
      rewrite insert_by_len_perm. constructor; [|done].
      apply Z.ltb_lt in E. unfold longer_first. lia.
    + constructor; [done|]. apply Z.ltb_ge in E.
      apply StronglySorted_inv in Hs as [_ Hx].
      constructor; [done|].
      eapply Forall_impl; [exact Hx|]. unfold longer_first. intros y Hy. lia.
Qed.

Lemma insert_by_len_of_len (k : Z) (w : string) (l : list string) :
  of_len k (insert_by_len w l) = of_len k (w :: l).
Proof.
  unfold of_len. induction l as [|x l IH]; [done|].
  simpl. destruct (len w <? len x) eqn:E; [|done].
  apply Z.ltb_lt in E. rewrite filter_cons, IH, !filter_cons.
  repeat case_decide; try done; lia.
Qed.

(** The candidate ordering is a stable sort by descending length. *)
Lemma sorted_by_len_desc_stable (words : list string) :
  stable_sort_of words (sorted_by_len_desc words).
Proof.
  split.
  - induction words as [|w l IH]; [constructor|].
    simpl. by apply insert_by_len_sorted.
  - intros k. induction words as [|w l IH]; [done|].
    simpl. rewrite insert_by_len_of_len. unfold of_len in *.
    by rewrite !filter_cons, IH.
Qed.

(** Two stable sorts of the same list are equal: the result of
    [sorted(words, key=len, reverse=True)] does not depend on the sorting
    algorithm. *)
Lemma stable_sort_unique (l1 l2 : list string) :
  StronglySorted longer_first l1 -> StronglySorted longer_first l2 ->
  (forall k, of_len k l1 = of_len k l2) -> l1 = l2.
Proof.
  revert l2. induction l1 as [|a l1 IH]; intros l2 H1 H2 Hk.
  - destruct l2 as [|b l2]; [done|].
    specialize (Hk (len b)). unfold of_len in Hk.
    by rewrite filter_nil, filter_cons_True in Hk.
  - destruct l2 as [|b l2].
    { specialize (Hk (len a)). unfold of_len in Hk.
      by rewrite filter_nil, filter_cons_True in Hk. }
    apply StronglySorted_inv in H1 as [H1 Ha].
    apply StronglySorted_inv in H2 as [H2 Hb].
    rewrite Forall_forall in Ha. rewrite Forall_forall in Hb.
    assert (Hab : len a <= len b).
    { assert (Hin : a ∈ of_len (len a) (b :: l2)).
      { rewrite <- Hk. unfold of_len. rewrite filter_cons_True by done. left. }
      apply list_elem_of_filter in Hin as [_ Hin].
      apply elem_of_cons in Hin as [->|Hin]; [lia|]. by apply Hb. }
    assert (Hba : len b <= len a).
    { assert (Hin : b ∈ of_len (len b) (a :: l1)).
      { rewrite Hk. unfold of_len. rewrite filter_cons_True by done. left. }
      apply list_elem_of_filter in Hin as [_ Hin].
      apply elem_of_cons in Hin as [->|Hin]; [lia|]. by apply Ha. }
    assert (Hlen : len a = len b) by lia.
    pose proof (Hk (len a)) as Hhd. unfold of_len in Hhd.
    rewrite !filter_cons_True in Hhd by done.
    injection Hhd as -> Htl. f_equal.
    apply IH; [done|done|].
    intros k. destruct (decide (k = len b)) as [->|Hne]; [exact Htl|].
    specialize (Hk k). unfold of_len in *.
    rewrite !filter_cons_False in Hk by (intros E; apply Hne; congruence).
    done.
Qed.

Lemma sorted_unique (words l' : list string) :
  stable_sort_of words l' -> l' = sorted_by_len_desc words.
Proof.
  intros [Hs Hk]. destruct (sorted_by_len_desc_stable words) as [Hs' Hk'].
  apply stable_sort_unique; [done|done|]. intros k. by rewrite Hk, Hk'.
Qed.

(** C8 (candidate ordering): the list [find_best_cover] searches is the
    candidate list sorted by descending length, words of equal length
    keeping the order in which they arrived; it is a permutation of the
    candidates; and the suffix-sum table and the search itself are computed
    over that sorted list. *)
Theorem find_best_cover_candidate_order (words : list string) :
  let ws := sorted_by_len_desc words in
  ws ≡ₚ words /\
  StronglySorted longer_first ws /\
  (forall k, of_len k ws = of_len k words) /\
  (exists t, build_rem_len ws = Some t /\ is_rem_len ws t) /\
  (forall clock lc timeout,
      find_best_cover_run clock words lc timeout =
      (t ← build_rem_len ws;
       let s1 := greedy_seed ws (initial_state words lc) in
       dfs clock (PrimFloat.add (clock 0%nat) timeout) ws t (length ws) 0
           (letter_counts s1) (best_used s1) s1)).
Proof.
  intros ws. destruct (sorted_by_len_desc_stable words) as [Hs Hk].
  repeat split; try done.
  - apply sorted_by_len_desc_perm.
  - apply build_rem_len_spec.
Qed.

(** ** Deadline and degenerate inputs *)

(** C6 (immediate deadline): when the clock reading taken on entering the
    DFS root already exceeds the deadline, [find_best_cover] returns exactly
    the greedy-seed result, and the root is the only DFS node entered: the
    call takes two clock readings in all, one for the deadline and one at
    the root. *)
Theorem deadline_past_returns_seed clock words lc timeout :
  PrimFloat.ltb (PrimFloat.add (clock 0%nat) timeout) (clock 1%nat) = true ->
  find_best_cover clock words lc timeout = Some (seed_result words lc) /\
  exists s, find_best_cover_run clock words lc timeout = Some s /\ reads s = 2%nat.
Proof.
  intros Hpast.
  assert (H : find_best_cover_run clock words lc timeout =
              Some (tick (greedy_seed (sorted_by_len_desc words)
                                      (initial_state words lc)))).
  { unfold find_best_cover_run, search.
    destruct (build_rem_len_spec (sorted_by_len_desc words)) as (t & -> & _).
    cbn [mbind option_bind]. rewrite dfs_unfold. unfold time_time.
    rewrite greedy_seed_reads. simpl reads. by rewrite Hpast. }
  split.
  - unfold find_best_cover. by rewrite H.
  - eexists. split; [exact H|]. simpl. by rewrite greedy_seed_reads.
Qed.

Lemma deadline_past_returns_seed_witness :
  find_best_cover ticking_clock ["AT"; "CAT"; "CA"]%string (Counter_of "CAT") 0%float
  = Some (seed_result ["AT"; "CAT"; "CA"]%string (Counter_of "CAT")) /\
  exists s, find_best_cover_run ticking_clock ["AT"; "CAT"; "CA"]%string
                                (Counter_of "CAT") 0%float = Some s /\
            reads s = 2%nat.
Proof.
  apply (deadline_past_returns_seed ticking_clock ["AT"; "CAT"; "CA"]%string
           (Counter_of "CAT") 0%float).
  reflexivity.
Defined.

Lemma seed_word_None (ws : list string) (lc : gmap ascii Z) :
  (forall w, w ∈ ws -> affordable_keys (Counter_of w) lc = false) ->
  seed_word ws lc = None.
Proof.
  intros H. destruct (seed_word ws lc) as [w|] eqn:E; [|done].
  apply seed_word_affordable in E as [Hin Ha]. rewrite (H w Hin) in Ha. done.
Qed.

(** When no candidate is affordable from the pool, the result is empty,
    whatever the clock does. *)
Lemma nothing_affordable clock words lc timeout :
  (forall w, w ∈ words -> affordable_keys (Counter_of w) lc = false) ->
  find_best_cover clock words lc timeout = Some ([], 0).
Proof.
  intros Hno.
  assert (Hno' : forall w, w ∈ sorted_by_len_desc words ->
                           affordable_keys (Counter_of w) lc = false).
  { intros w Hw. apply Hno. by apply elem_of_sorted_by_len_desc. }
  unfold find_best_cover, find_best_cover_run.
  destruct (search_rule clock (PrimFloat.add (clock 0%nat) timeout)
              (sorted_by_len_desc words) (initial_state words lc)
              (fun _ counts _ used => counts = lc /\ used = 0)
              (fun u sub _ => u = 0 /\ sub = [])) as (s & -> & _ & HB).
  - intros idx i counts path used w [-> _] _ Hw Ha.
    apply list_elem_of_lookup_2 in Hw. by rewrite (Hno' w Hw) in Ha.
  - intros idx counts path used u sub h [_ ->] [-> _] Hlt. lia.
  - rewrite greedy_seed_spec. simpl. by rewrite (seed_word_None _ _ Hno').
  - unfold BestOf. rewrite greedy_seed_spec. simpl.
    by rewrite (seed_word_None _ _ Hno').
  - destruct HB as [H1 H2]. cbn [mbind option_bind]. by rewrite H1, H2.
Qed.



(** ** Independence from the clock *)

(** As long as no deadline test fires, [dfs] does not depend on the clock. *)
Lemma dfs_never_expired clock1 deadline1 clock2 deadline2 words rem_len :
  (forall k, PrimFloat.ltb deadline1 (clock1 k) = false) ->
  (forall k, PrimFloat.ltb deadline2 (clock2 k) = false) ->
  forall m idx counts used s,
    dfs clock1 deadline1 words rem_len m idx counts used s =
    dfs clock2 deadline2 words rem_len m idx counts used s.
Proof.
  intros H1 H2. induction m as [m IH] using lt_wf_ind.
  intros idx counts used s. rewrite !dfs_unfold. unfold time_time.
  rewrite H1, H2. destruct (rem_len !! idx) as [bound|]; [|done].
  cbn [mbind option_bind].
  destruct (used + bound <=? best_used (tick s)); [done|].
  apply for_range_ext. intros k' i' t Hk'. unfold try_word.
  destruct (words !! i') as [w|]; [|done]. cbn [mbind option_bind].
  destruct (sum_values counts <? len w); [done|].
  destruct (affordable_keys (Counter_of w) counts); [|done].
  by rewrite IH.
Qed.

(** C9 (idempotence): two runs on the same candidates, pool and timeout,
    each under its own clock, return the same result (same subset in the
    same order, same letters used) provided the deadline test never fires
    in either run. *)
Theorem find_best_cover_deterministic clock1 clock2 words lc timeout :
  (forall k, PrimFloat.ltb (PrimFloat.add (clock1 0%nat) timeout) (clock1 k) = false) ->
  (forall k, PrimFloat.ltb (PrimFloat.add (clock2 0%nat) timeout) (clock2 k) = false) ->
  exists r, find_best_cover clock1 words lc timeout = Some r /\
            find_best_cover clock2 words lc timeout = Some r.
Proof.
  intros H1 H2.
  destruct (find_best_cover_returns clock1 words lc timeout) as (r & Hr).
  exists r. split; [done|]. rewrite <- Hr.
  unfold find_best_cover, find_best_cover_run, search.
  destruct (build_rem_len (sorted_by_len_desc words)) as [t|]; [|done].
  cbn [mbind option_bind].
  by rewrite (dfs_never_expired clock2 _ clock1 _ _ _ H2 H1).
Qed.

Lemma find_best_cover_deterministic_witness :
  exists r,
    find_best_cover frozen_clock ["AT"; "CAT"; "TA"]%string (Counter_of "CATTA") 15%float
    = Some r /\
    find_best_cover ticking_clock ["AT"; "CAT"; "TA"]%string (Counter_of "CATTA") 15%float
    = Some r.
Proof.
  apply (find_best_cover_deterministic frozen_clock ticking_clock
           ["AT"; "CAT"; "TA"]%string (Counter_of "CATTA") 15%float).
  - intros k. reflexivity.
  - intros [|k]; reflexivity.
Defined.

(** ** The length test is redundant *)

Lemma dfs_no_precheck_eq clock deadline words rem_len :
  forall m idx counts used s,
    nonneg counts ->
    dfs_no_precheck clock deadline words rem_len m idx counts used s =
    dfs clock deadline words rem_len m idx counts used s.
Proof.
  induction m as [m IH] using lt_wf_ind.
  intros idx counts used s Hn. rewrite dfs_unfold, dfs_no_precheck_unfold.
  unfold time_time.
  destruct (PrimFloat.ltb deadline (clock (reads s))); [done|].
  destruct (rem_len !! idx) as [bound|]; [|done].
  cbn [mbind option_bind].
  destruct (used + bound <=? best_used (tick s)); [done|].
  apply for_range_ext. intros k' i' t Hk'.
  unfold try_word, try_word_no_precheck.
  destruct (words !! i') as [w|]; [|done]. cbn [mbind option_bind].
  destruct (sum_values counts <? len w) eqn:E.
  - apply Z.ltb_lt in E. by rewrite (length_check_sound w counts Hn E).
  - destruct (affordable_keys (Counter_of w) counts) eqn:Ea; [|done].
    rewrite IH; [done|done|]. by apply subtract_nonneg.
Qed.

(** C10 (soundness of the length test): in a pool without negative counts,
    a word longer than the sum of the remaining counts also fails the
    letter-by-letter test; hence, started from a pool without negative
    counts, the search without the length test returns exactly what
    [find_best_cover] returns. *)
Theorem length_precheck_redundant clock words lc timeout
    (w : string) (counts : gmap ascii Z) :
  nonnegb lc = true ->
  (nonnegb counts = true -> sum_values counts < len w ->
   affordable_keys (Counter_of w) counts = false) /\
  find_best_cover_no_precheck clock words lc timeout =
  find_best_cover clock words lc timeout.
Proof.
  intros Hlc. apply nonnegb_spec in Hlc. split.
  - intros Hc Hlt. apply nonnegb_spec in Hc. by apply length_check_sound.
  - unfold find_best_cover_no_precheck, find_best_cover, find_best_cover_run,
      search_no_precheck, search.
    destruct (build_rem_len (sorted_by_len_desc words)) as [t|]; [|done].
    cbn [mbind option_bind]. rewrite dfs_no_precheck_eq; [done|].
    rewrite greedy_seed_spec. simpl.
    destruct (seed_word _ _) as [x|] eqn:E; simpl; [|done].
    apply seed_word_affordable in E as [_ Ha]. by apply subtract_nonneg.
Qed.

Lemma length_precheck_redundant_witness :
  affordable_keys (Counter_of "CAT") (Counter_of "AT") = false /\
  find_best_cover_no_precheck frozen_clock ["AT"; "CAT"; "TA"]%string
                              (Counter_of "CATTA") 15%float =
  find_best_cover frozen_clock ["AT"; "CAT"; "TA"]%string (Counter_of "CATTA") 15%float.
Proof.
  destruct (length_precheck_redundant frozen_clock ["AT"; "CAT"; "TA"]%string
              (Counter_of "CATTA") 15%float "CAT" (Counter_of "AT") eq_refl)
    as [Hsound Heq].
  split; [|exact Heq].
  apply Hsound; [reflexivity|]. vm_compute. reflexivity.
Defined.

(** Without the premise the two searches can differ: a negative count makes
    the length test reject a word that every letter test accepts. *)
Remark length_precheck_needs_nonneg :
  let lc := <["Z"%char := -3]> (Counter_of "AATT") in
  find_best_cover frozen_clock ["AT"]%string lc 15%float = Some (["AT"]%string, 2) /\
  find_best_cover_no_precheck frozen_clock ["AT"]%string lc 15%float
  = Some (["AT"; "AT"]%string, 4).
Proof. vm_compute. split; reflexivity. Qed.

(** ** Shape of the returned subset, and what happens to the arguments *)

Lemma sublist_take_le (l : list string) (i j : nat) :
  (i <= j)%nat -> take i l `sublist_of` take j l.
Proof.
  intros Hij. replace (take i l) with (take i (take j l)).
  - apply sublist_take.
  - rewrite take_take. f_equal. lia.
Qed.

(** The subset returned is the seed stack followed by words picked at
    strictly increasing indices of the sorted list: the DFS proper
    enumerates subsets, but the seed word stays available to it. *)
Lemma find_best_cover_shape clock words lc timeout :
  exists l used,
    find_best_cover clock words lc timeout = Some (seed_list words lc ++ l, used) /\
    l `sublist_of` sorted_by_len_desc words.
Proof.
  unfold find_best_cover, find_best_cover_run.
  set (ws := sorted_by_len_desc words).
  destruct (search_rule clock (PrimFloat.add (clock 0%nat) timeout)
              ws (initial_state words lc)
              (fun idx _ path _ =>
                 exists l, path = seed_list words lc ++ l /\
                           l `sublist_of` take idx ws)
              (fun _ sub _ =>
                 exists l, sub = seed_list words lc ++ l /\ l `sublist_of` ws))
    as (s & -> & _ & (l & Hl & Hsub)).
  - intros idx i counts path used w (l & -> & Hl) Hi Hw _.
    exists (l ++ [w]). split; [by rewrite app_assoc|].
    rewrite (take_S_r _ _ _ Hw). apply sublist_app; [|done].
    etrans; [exact Hl|]. by apply sublist_take_le.
  - intros idx counts path used u sub h (l & -> & Hl) _ _.
    exists l. split; [done|]. etrans; [exact Hl|]. apply sublist_take.
  - exists []. rewrite app_nil_r. split; [|apply sublist_nil_l].
    rewrite greedy_seed_spec. unfold seed_list. fold ws. simpl.
    by destruct (seed_word ws lc).
  - exists []. rewrite app_nil_r. split; [|apply sublist_nil_l].
    rewrite greedy_seed_spec. unfold seed_list. fold ws. simpl.
    by destruct (seed_word ws lc).
  - exists l, (best_used s). cbn [mbind option_bind]. by rewrite Hl.
Qed.

(** C1 (seed excluded from re-selection), evaluated where it fails: with
    pool AATT and the single candidate AT, the seed AT is put on the stack
    and the DFS, started at index 0, selects AT again; the subset returned
    holds the one candidate twice. *)
Theorem seed_word_selected_twice :
  well_formed ["AT"%string] (Counter_of "AATT") = true /\
  NoDup ["AT"%string] /\
  seed_list ["AT"%string] (Counter_of "AATT") = ["AT"%string] /\
  find_best_cover frozen_clock ["AT"%string] (Counter_of "AATT") 15%float
  = Some (["AT"; "AT"]%string, 4).
Proof.
  split; [|split; [|split]].
  - vm_compute. reflexivity.
  - apply NoDup_singleton.
  - vm_compute. reflexivity.
  - vm_compute. reflexivity.
Qed.

(** C2, refuted as stated: after a call that chooses a seed the caller's
    letter-count mapping no longer holds what it held before. *)
Lemma find_best_cover_mutates_letter_counts :
  exists s,
    find_best_cover_run frozen_clock ["AT"%string] (Counter_of "CAT") 15%float = Some s /\
    count_of (Counter_of "CAT") "A" = 1 /\
    count_of (letter_counts s) "A" = 0 /\
    letter_counts s <> Counter_of "CAT".
Proof.
  eexists. split; [vm_compute; reflexivity|].
  split; [reflexivity|]. split; [reflexivity|].
  intros H. apply (f_equal (fun c => count_of c "A")) in H.
  vm_compute in H. discriminate H.
Qed.

(** C2, amended: [find_best_cover] returns with the candidate list as the
    caller passed it; the caller's letter-count mapping is untouched when
    no candidate is affordable, and otherwise it has been decremented in
    place by the letters of the greedy seed word, so that every letter's
    count is its count before the call minus its occurrences in the seed
    stack. *)
Theorem find_best_cover_frame clock words lc timeout :
  exists s,
    find_best_cover_run clock words lc timeout = Some s /\
    arg_words s = words /\
    letter_counts s =
      match seed_word (sorted_by_len_desc words) lc with
      | Some w => subtract lc (Counter_of w)
      | None => lc
      end /\
    forall ch, count_of (letter_counts s) ch =
               count_of lc ch - occurrences ch (seed_list words lc).
Proof.
  destruct (find_best_cover_run_returns clock words lc timeout)
    as (s & Hs & _ & Hlc & Hw).
  exists s. split; [done|].
  rewrite Hw, Hlc, greedy_seed_spec. unfold seed_list. simpl.
  destruct (seed_word _ _) as [w|]; simpl.
  - repeat split. intros ch. rewrite count_of_subtract, count_of_Counter_of. lia.
  - repeat split. intros ch. lia.
Qed.

Example run_solve :
  solve frozen_clock None ["cat"; "AT"; "TAB"; "A"; "XQ"; "TA"; "COAT"]%string "taco"
  = Some (["COAT"]%string, 0).
Proof. vm_compute. reflexivity. Qed.

Example run_filter :
  filter_words None ["cat"; "AT"; "TAB"; "A"; "XQ"; "TA"; "CT"; "COAT"]%string
               (Counter_of "TACO")
  = ["AT"; "TA"; "COAT"]%string.
Proof. vm_compute. reflexivity. Qed.

(** ** The dictionary filter *)

Lemma occ_nonneg (ch : ascii) (w : string) : 0 <= occ ch w.
Proof. unfold occ. lia. Qed.

Lemma occurrences_nonneg (ch : ascii) (l : list string) : 0 <= occurrences ch l.
Proof.
  induction l as [|w l IH]; simpl; [lia|]. pose proof (occ_nonneg ch w). lia.
Qed.

(** The keys of [Counter(w)] are the letters of [w], each with its number
    of occurrences. *)
Lemma Counter_of_lookup (w : string) (ch : ascii) (v : Z) :
  Counter_of w !! ch = Some v <-> v = occ ch w /\ 0 < v.
Proof.
  assert (Hpos : forall c x, Counter_of w !! c = Some x -> 0 < x).
  { unfold Counter_of.
    assert (G : forall l (acc : gmap ascii Z),
      (forall c x, acc !! c = Some x -> 0 < x) ->
      forall c x,
        fold_left (fun acc ch => <[ch := count_of acc ch + 1]> acc) l acc !! c = Some x ->
        0 < x).
    { induction l as [|a l IH]; intros acc Hacc; [exact Hacc|].
      cbn [fold_left]. apply IH. intros c x. rewrite lookup_insert.
      case_decide as E.
      - intros [= <-]. destruct (acc !! a) as [y|] eqn:Ea.
        + rewrite (count_of_Some _ _ _ Ea). specialize (Hacc a y Ea). lia.
        + rewrite (count_of_None _ _ Ea). lia.
      - apply Hacc. }
    apply G. intros c x. by rewrite lookup_empty. }
  pose proof (count_of_Counter_of w ch) as Hc. split.
  - intros Hv. rewrite (count_of_Some _ _ _ Hv) in Hc. split; [done|by eapply Hpos].
  - intros [-> Hv]. destruct (Counter_of w !! ch) as [x|] eqn:E.
    + rewrite (count_of_Some _ _ _ E) in Hc. by subst.
    + rewrite (count_of_None _ _ E) in Hc. lia.
Qed.

(** The letter test of the source decides [buildable]. *)
Lemma affordable_keys_buildable (w : string) (counts : gmap ascii Z) :
  affordable_keys (Counter_of w) counts = true <-> buildable w counts.
Proof.
  rewrite affordable_keys_spec. unfold buildable. split.
  - intros H ch Hch. apply H. by apply Counter_of_lookup.
  - intros H ch v Hv. apply Counter_of_lookup in Hv as [-> Hv]. by apply H.
Qed.

Lemma filter_step_passes enchant_dict lc acc w :
  filter_step enchant_dict lc acc w =
  if passes_filter enchant_dict lc w then acc ++ [w] else acc.
Proof.
  unfold filter_step, passes_filter.
  destruct (len w <? MIN_WORD_LEN); [done|].
  destruct ((len w =? 2) && bool_decide (w ∉ ALLOWED_TWO_LETTERS)); [done|].
  simpl. by destruct (affordable_keys _ _ && is_valid_word _ _).
Qed.

(** The loop of [filter_words] keeps exactly the words that pass the test,
    in the order of the input. *)
Lemma filter_words_filter enchant_dict words lc :
  filter_words enchant_dict words lc =
  List.filter (passes_filter enchant_dict lc) words.
Proof.
  unfold filter_words.
  assert (G : forall ws acc,
    fold_left (filter_step enchant_dict lc) ws acc =
    acc ++ List.filter (passes_filter enchant_dict lc) ws).
  { induction ws as [|w ws IH]; intros acc.
    - simpl. by rewrite app_nil_r.
    - cbn [fold_left List.filter]. rewrite IH, filter_step_passes.
      destruct (passes_filter enchant_dict lc w); [|done].
      by rewrite <- app_assoc. }
  by rewrite G.
Qed.

Lemma passes_filter_spec enchant_dict lc w :
  passes_filter enchant_dict lc w = true <->
  2 <= len w /\ (len w = 2 -> w ∈ ALLOWED_TWO_LETTERS) /\
  buildable w lc /\ is_valid_word enchant_dict w = true.
Proof.
  unfold passes_filter, MIN_WORD_LEN.
  rewrite !andb_true_iff, !negb_true_iff, andb_false_iff.
  rewrite Z.ltb_ge, Z.eqb_neq, bool_decide_eq_false, affordable_keys_buildable.
  split.
  - intros [[Hl Hw] [Hb Hv]]. repeat split; [done| |done|done].
    intros E. destruct Hw as [Hw|Hw]; [done|].
    destruct (decide (w ∈ ALLOWED_TWO_LETTERS)); [done|]. by destruct Hw.
  - intros (Hl & Hw & Hb & Hv). repeat split; [done| |done|done].
    destruct (decide (len w = 2)) as [E|E]; [|by left].
    right. intros Hn. by apply Hn, Hw.
Qed.

Lemma filter_sublist (f : string -> bool) (l : list string) :
  List.filter f l `sublist_of` l.
Proof.
  induction l as [|x l IH]; simpl; [constructor|].
  destruct (f x); by constructor.
Qed.

Lemma filter_sublist_impl (f g : string -> bool) (l : list string) :
  (forall x, f x = true -> g x = true) ->
  List.filter f l `sublist_of` List.filter g l.
Proof.
  intros Hfg. induction l as [|x l IH]; simpl; [constructor|].
  destruct (f x) eqn:Ef.
  - rewrite (Hfg x Ef). by constructor.
  - destruct (g x); [by constructor|done].
Qed.

(** X1 (what the filter keeps): a word is among the candidates returned by
    [filter_words] exactly when it is in the word list, has at least two
    letters, is on the two-letter whitelist if it has exactly two, can be
    built from the pool on its own, and passes the spell checker. *)
Theorem filter_words_spec enchant_dict words lc (w : string) :
  w ∈ filter_words enchant_dict words lc <->
  w ∈ words /\ 2 <= len w /\ (len w = 2 -> w ∈ ALLOWED_TWO_LETTERS) /\
  buildable w lc /\ is_valid_word enchant_dict w = true.
Proof.
  rewrite filter_words_filter, list_elem_of_In, filter_In, passes_filter_spec.
  by rewrite list_elem_of_In.
Qed.

(** X2 (the filter only drops words): the candidates are a subsequence of
    the word list: nothing is added, reordered or repeated. *)
Theorem filter_words_sublist enchant_dict words lc :
  filter_words enchant_dict words lc `sublist_of` words.
Proof. rewrite filter_words_filter. apply filter_sublist. Qed.

(** X3 (the spell checker only removes): with a spell-checking dictionary
    installed the candidates are a subsequence of the candidates obtained
    without one. *)
Theorem filter_words_spell_check_removes check words lc :
  filter_words (Some check) words lc `sublist_of` filter_words None words lc.
Proof.
  rewrite !filter_words_filter. apply filter_sublist_impl.
  intros x. rewrite !passes_filter_spec. intros (?&?&?&_). by repeat split.
Qed.

(** X4 (the filter establishes the solver's contract): for a pool without
    negative counts, the candidates returned by [filter_words] together
    with that pool are a well-formed input of [find_best_cover]. *)
Theorem filter_words_well_formed enchant_dict words lc :
  nonnegb lc = true ->
  well_formed (filter_words enchant_dict words lc) lc = true.
Proof.
  intros Hlc. unfold well_formed. rewrite Hlc. simpl.
  apply forallb_forall. intros w Hw.
  rewrite filter_words_filter in Hw. apply filter_In in Hw as [_ Hw].
  unfold passes_filter, MIN_WORD_LEN in Hw.
  rewrite !andb_true_iff, !negb_true_iff in Hw.
  destruct Hw as [[Hl _] [Ha _]].
  rewrite <- affordable_keys_items, Ha, andb_true_r.
  apply Z.leb_le. apply Z.ltb_ge in Hl. lia.
Qed.

Lemma filter_words_well_formed_witness :
  well_formed (filter_words None ["CAT"; "AT"; "A"; "DOG"; "XQ"]%string (Counter_of "TACO"))
              (Counter_of "TACO") = true.
Proof.
  apply (filter_words_well_formed None ["CAT"; "AT"; "A"; "DOG"; "XQ"]%string
           (Counter_of "TACO")).
  reflexivity.
Defined.

Lemma filter_words_len_bounds enchant_dict words lc (w : string) :
  nonneg lc -> w ∈ filter_words enchant_dict words lc ->
  2 <= len w <= sum_values lc.
Proof.
  intros Hlc Hw. rewrite filter_words_filter in Hw.
  apply list_elem_of_In, filter_In in Hw as [_ Hw].
  apply passes_filter_spec in Hw as (Hl & _ & Hb & _).
  split; [done|]. apply affordable_keys_buildable in Hb.
  destruct (Z_lt_le_dec (sum_values lc) (len w)) as [Hlt|]; [|done].
  by rewrite (length_check_sound w lc Hlc Hlt) in Hb.
Qed.

Lemma filter_words_small_pool enchant_dict words lc :
  nonneg lc -> sum_values lc < 2 -> filter_words enchant_dict words lc = [].
Proof.
  intros Hlc Hsmall.
  destruct (filter_words enchant_dict words lc) as [|w l] eqn:E; [done|].
  assert (Hw : w ∈ filter_words enchant_dict words lc) by (rewrite E; left).
  apply filter_words_len_bounds in Hw; [lia|done].
Qed.

(** X5 (no candidate outgrows the pool): for a pool without negative
    counts, no candidate has more letters than the pool holds, and a pool
    of fewer than two letters has no candidate at all. *)
Theorem filter_words_bounded_by_pool enchant_dict words lc :
  nonnegb lc = true ->
  (forall w, w ∈ filter_words enchant_dict words lc -> len w <= sum_values lc) /\
  (sum_values lc < 2 -> filter_words enchant_dict words lc = []).
Proof.
  intros Hlc. apply nonnegb_spec in Hlc. split.
  - intros w Hw. apply filter_words_len_bounds in Hw; [lia|done].
  - by apply filter_words_small_pool.
Qed.

Lemma filter_words_bounded_by_pool_witness :
  (forall w, w ∈ filter_words None ["CAT"; "AT"; "A"]%string (Counter_of "T") ->
             len w <= sum_values (Counter_of "T")) /\
  (sum_values (Counter_of "T") < 2 ->
   filter_words None ["CAT"; "AT"; "A"]%string (Counter_of "T") = []).
Proof.
  apply (filter_words_bounded_by_pool None ["CAT"; "AT"; "A"]%string (Counter_of "T")).
  reflexivity.
Defined.

(** ** What the search returns, in one statement *)

Lemma sum_len_nonneg (l : list string) : 0 <= sum_len l.
Proof. induction l as [|w l IH]; simpl; [lia|]. pose proof (len_nonneg w). lia. Qed.

Lemma sublist_sum_len (l1 l2 : list string) :
  l1 `sublist_of` l2 -> sum_len l1 <= sum_len l2.
Proof.
  induction 1 as [|x l1 l2 _ IH|x l1 l2 _ IH]; simpl; [lia|lia|].
  pose proof (len_nonneg x). lia.
Qed.

Lemma sum_values_subtract (c wc : gmap ascii Z) :
  sum_values (subtract c wc) = sum_values c - sum_values wc.
Proof.
  unfold subtract.
  apply (map_fold_weak_ind (fun r m => sum_values r = sum_values c - sum_values m)).
  - rewrite sum_values_empty. lia.
  - intros i x m r Hi IH. rewrite sum_values_update, sum_values_insert by done. lia.
Qed.

Lemma seed_list_elem_of (words : list string) (lc : gmap ascii Z) (w : string) :
  w ∈ seed_list words lc -> w ∈ words.
Proof.
  unfold seed_list. destruct (seed_word _ _) as [x|] eqn:E.
  - intros Hw. apply list_elem_of_singleton in Hw as ->.
    apply seed_word_affordable in E as [Hin _].
    exact (proj1 (elem_of_sorted_by_len_desc _ _) Hin).
  - intros Hw. by apply elem_of_nil in Hw.
Qed.

(** The subset returned is a selection made of the seed stack and a
    subsequence of the sorted candidates; it fits the pool, its letters are
    counted exactly, and they are no more than the pool holds. *)
Lemma find_best_cover_summary clock words lc timeout :
  nonneg lc ->
  exists l,
    find_best_cover clock words lc timeout
    = Some (seed_list words lc ++ l, sum_len (seed_list words lc ++ l)) /\
    l `sublist_of` sorted_by_len_desc words /\
    fits (seed_list words lc ++ l) lc /\
    sum_len (seed_list words lc ++ l) <= sum_values lc.
Proof.
  intros Hlc. unfold find_best_cover, find_best_cover_run.
  set (ws := sorted_by_len_desc words). set (seed := seed_list words lc).
  set (s1 := greedy_seed ws (initial_state words lc)).
  assert (Hseed : chosen s1 = seed /\ best_subset s1 = seed /\
                  best_used s1 = sum_len seed /\ nonneg (letter_counts s1) /\
                  (forall ch, occurrences ch seed + count_of (letter_counts s1) ch
                              = count_of lc ch) /\
                  sum_len seed + sum_values (letter_counts s1) = sum_values lc).
  { subst s1 seed. rewrite greedy_seed_spec. unfold seed_list. fold ws.
    cbn [letter_counts initial_state].
    destruct (seed_word ws lc) as [w|] eqn:E; simpl.
    - apply seed_word_affordable in E as [_ Ha]. repeat split; try lia.
      + by apply subtract_nonneg.
      + intros ch. rewrite count_of_subtract, count_of_Counter_of. lia.
      + rewrite sum_values_subtract, sum_values_Counter_of. lia.
    - repeat split; try done; intros; lia. }
  destruct Hseed as (Hc & Hb & Hu & Hn & Hocc & Hsum).
  destruct (search_rule clock (PrimFloat.add (clock 0%nat) timeout)
              ws (initial_state words lc)
              (fun idx counts path used =>
                 nonneg counts /\
                 (forall ch, occurrences ch path + count_of counts ch = count_of lc ch) /\
                 used = sum_len path /\
                 used + sum_values counts = sum_values lc /\
                 exists l, path = seed ++ l /\ l `sublist_of` take idx ws)
              (fun u sub _ =>
                 fits sub lc /\ u = sum_len sub /\ u <= sum_values lc /\
                 exists l, sub = seed ++ l /\ l `sublist_of` ws))
    as (s & -> & _ & (Hfit & Hused & Hle & l & Hl & Hsub)).
  - intros idx i counts path used w (Hn' & Ho & -> & Hs & l & -> & Hl) Hi Hw Ha.
    split; [by apply subtract_nonneg|]. split; [|split; [|split]].
    + intros ch. rewrite occurrences_app, count_of_subtract, count_of_Counter_of.
      simpl. specialize (Ho ch). lia.
    + rewrite !sum_len_app. simpl. lia.
    + rewrite sum_values_subtract, sum_values_Counter_of. lia.
    + exists (l ++ [w]). split; [by rewrite app_assoc|].
      rewrite (take_S_r _ _ _ Hw). apply sublist_app; [|done].
      etrans; [exact Hl|]. by apply sublist_take_le.
  - intros idx counts path used u sub h (Hn' & Ho & -> & Hs & l & -> & Hl) _ _.
    split; [|split; [done|split]].
    + intros ch. specialize (Ho ch). specialize (Hn' ch). lia.
    + pose proof (sum_values_nonneg counts Hn'). lia.
    + exists l. split; [done|]. etrans; [exact Hl|]. apply sublist_take.
  - fold s1. rewrite Hc, Hu. repeat split; try done.
    exists []. rewrite app_nil_r. split; [done|apply sublist_nil_l].
  - unfold BestOf. fold s1. rewrite Hb, Hu. repeat split.
    + intros ch. specialize (Hocc ch). specialize (Hn ch). lia.
    + pose proof (sum_values_nonneg _ Hn). lia.
    + exists []. rewrite app_nil_r. split; [done|apply sublist_nil_l].
  - exists l. cbn [mbind option_bind]. rewrite Hused, Hl. repeat split; try done.
    + by rewrite <- Hl.
    + by rewrite <- Hl, <- Hused.
Qed.

(** ** Exhaustive search finds the best selection that contains the seed *)

Lemma pop_best_used (s t : state) : pop s = Some t -> best_used t = best_used s.
Proof. unfold pop. destruct (chosen s); [done|]. by intros [= <-]. Qed.

Lemma fits_cons (w : string) (l : list string) (counts : gmap ascii Z) :
  fits (w :: l) counts ->
  buildable w counts /\ fits l (subtract counts (Counter_of w)).
Proof.
  intros H. split.
  - intros ch _. specialize (H ch). simpl in H.
    pose proof (occurrences_nonneg ch l). lia.
  - intros ch. rewrite count_of_subtract, count_of_Counter_of.
    specialize (H ch). simpl in H. lia.
Qed.

Section Exhaustive.

Variable clock : nat -> float.
Variable deadline : float.
Variable words : list string.
Variable rem_len : list Z.
Hypothesis Htable : is_rem_len words rem_len.

(** The best value only grows along a [dfs] call. *)
Lemma dfs_best_mono m idx counts used s s' :
  (idx + m = length words)%nat ->
  dfs clock deadline words rem_len m idx counts used s = Some s' ->
  best_used s <= best_used s'.
Proof.
  intros Hm Hs. destruct Htable as [Hlen _].
  destruct (dfs_rule clock deadline words rem_len Hlen
              (fun _ _ _ _ => True) (fun u _ _ => best_used s <= u))
    with (m := m) (idx := idx) (counts := counts) (used := used) (s := s)
    as (s'' & E & _ & HB); try done.
  - intros. lia.
  - unfold BestOf. lia.
  - rewrite E in Hs. by injection Hs as <-.
Qed.

Lemma try_word_best_mono k' i counts used t t' :
  (S i + k' = length words)%nat ->
  try_word words (dfs clock deadline words rem_len k') counts used i t = Some t' ->
  best_used t <= best_used t'.
Proof.
  intros Hk. unfold try_word. intros H.
  apply bind_Some in H as (w & Ew & H).
  destruct (sum_values counts <? len w); [by injection H as <-|].
  destruct (affordable_keys (Counter_of w) counts); [|by injection H as <-].
  apply bind_Some in H as (s2 & E2 & Hp).
  apply dfs_best_mono in E2; [|done]. apply pop_best_used in Hp.
  simpl in E2. lia.
Qed.

Lemma for_range_best_mono counts used :
  forall k i t t',
    (i + k = length words)%nat ->
    for_range (fun k' => try_word words (dfs clock deadline words rem_len k') counts used)
              k i t = Some t' ->
    best_used t <= best_used t'.
Proof.
  induction k as [|k IH]; intros i t t' Hk H.
  - simpl in H. injection H as <-. lia.
  - simpl in H. apply bind_Some in H as (t1 & E1 & H).
    apply try_word_best_mono in E1; [|lia].
    apply IH in H; [|lia]. lia.
Qed.

Hypothesis Hnever : forall k, PrimFloat.ltb deadline (clock k) = false.

(** With no deadline in the way, a [dfs] frame leaves in [best] at least
    what any selection of the remaining candidates that fits its pool
    would add to the letters already used. *)
Lemma dfs_exhaustive :
  forall m idx counts used s s',
    (idx + m = length words)%nat -> nonneg counts ->
    dfs clock deadline words rem_len m idx counts used s = Some s' ->
    forall l, l `sublist_of` drop idx words -> fits l counts ->
              used + sum_len l <= best_used s'.
Proof.
  induction m as [m IH] using lt_wf_ind.
  intros idx counts used s s' Hm Hn Hs l Hl Hfit.
  rewrite dfs_unfold in Hs. unfold time_time in Hs. rewrite Hnever in Hs.
  destruct Htable as [Hlen Htab]. rewrite (Htab idx) in Hs by lia.
  cbn [mbind option_bind] in Hs.
  destruct (used + sum_len (drop idx words) <=? best_used (tick s)) eqn:Eprune.
  { injection Hs as <-. apply Z.leb_le in Eprune.
    pose proof (sublist_sum_len _ _ Hl). lia. }
  set (s1 := if best_used (tick s) <? used then _ else _) in Hs.
  assert (H1 : used <= best_used s1).
  { subst s1. destruct (best_used (tick s) <? used) eqn:E; simpl; [lia|].
    apply Z.ltb_ge in E. simpl in E. lia. }
  clearbody s1. clear Eprune.
  assert (Loop : forall k i t t',
    (i + k = length words)%nat -> (k <= m)%nat -> used <= best_used t ->
    for_range (fun k' => try_word words (dfs clock deadline words rem_len k') counts used)
              k i t = Some t' ->
    forall l, l `sublist_of` drop i words -> fits l counts ->
              used + sum_len l <= best_used t').
  { clear s s' s1 Hs H1 l Hl Hfit idx Hm.
    induction k as [|k IHk]; intros i t t' Hik Hkm Ht Hrun l Hl Hfit.
    - simpl in Hrun. injection Hrun as <-.
      rewrite drop_ge in Hl by lia. apply sublist_nil_r in Hl as ->. simpl. lia.
    - simpl in Hrun. apply bind_Some in Hrun as (t1 & E1 & Hrun).
      assert (Hmono1 : best_used t <= best_used t1).
      { eapply try_word_best_mono; [|exact E1]. lia. }
      destruct (words !! i) as [w|] eqn:Ew; [|apply lookup_ge_None in Ew; lia].
      rewrite (drop_S _ _ _ Ew) in Hl. apply sublist_cons_r in Hl as [Hl|(l' & -> & Hl)].
      + apply (IHk (S i) t1 t'); [lia|lia|lia|done|done|done].
      + apply fits_cons in Hfit as [Hb Hfit'].
        apply affordable_keys_buildable in Hb.
        unfold try_word in E1. rewrite Ew in E1. cbn [mbind option_bind] in E1.
        destruct (sum_values counts <? len w) eqn:Epre.
        { apply Z.ltb_lt in Epre. by rewrite (length_check_sound w counts Hn Epre) in Hb. }
        rewrite Hb in E1. apply bind_Some in E1 as (s2 & E2 & Hp).
        apply (IH k ltac:(lia)) with (l := l') in E2;
          [|lia|by apply subtract_nonneg|done|done].
        apply pop_best_used in Hp.
        apply for_range_best_mono in Hrun; [|lia].
        simpl. lia. }
  by apply (Loop m idx s1 s').
Qed.

End Exhaustive.

(** The state the seed loop hands to the search, for a pool without
    negative counts. *)
Lemma seeded_state_facts (words : list string) (lc : gmap ascii Z) :
  nonneg lc ->
  let s1 := greedy_seed (sorted_by_len_desc words) (initial_state words lc) in
  chosen s1 = seed_list words lc /\
  best_used s1 = sum_len (seed_list words lc) /\
  nonneg (letter_counts s1) /\
  forall ch, count_of (letter_counts s1) ch
             = count_of lc ch - occurrences ch (seed_list words lc).
Proof.
  intros Hlc s1. subst s1. rewrite greedy_seed_spec. unfold seed_list.
  cbn [letter_counts initial_state].
  destruct (seed_word _ lc) as [w|] eqn:E; simpl.
  - apply seed_word_affordable in E as [_ Ha]. repeat split; try lia.
    + by apply subtract_nonneg.
    + intros ch. rewrite count_of_subtract, count_of_Counter_of. lia.
  - repeat split; try done. intros ch. lia.
Qed.

(** X6 (only candidates are returned): the subset returned consists of the
    seed stack followed by a subsequence of the candidates sorted by
    descending length; in particular every returned word is one of the
    candidates the caller passed. *)
Theorem find_best_cover_returns_candidates clock words lc timeout :
  exists subset used,
    find_best_cover clock words lc timeout = Some (subset, used) /\
    (exists l, subset = seed_list words lc ++ l /\
               l `sublist_of` sorted_by_len_desc words) /\
    forall w, w ∈ subset -> w ∈ words.
Proof.
  destruct (find_best_cover_shape clock words lc timeout) as (l & used & Hr & Hl).
  exists (seed_list words lc ++ l), used. split; [done|]. split; [by exists l|].
  intros w Hw. apply elem_of_app in Hw as [Hw|Hw].
  - by apply seed_list_elem_of in Hw.
  - apply elem_of_sorted_by_len_desc. by eapply elem_of_sublist.
Qed.

(** X7 (letters used are bounded by the pool): for a pool without negative
    counts, the number of letters [find_best_cover] reports lies between 0
    and the number of letters in the pool. *)
Theorem find_best_cover_used_bounds clock words lc timeout :
  nonnegb lc = true ->
  exists subset used,
    find_best_cover clock words lc timeout = Some (subset, used) /\
    0 <= used <= sum_values lc.
Proof.
  intros Hlc. apply nonnegb_spec in Hlc.
  destruct (find_best_cover_summary clock words lc timeout Hlc)
    as (l & Hr & _ & _ & Hle).
  eexists _, _. split; [exact Hr|]. split; [apply sum_len_nonneg|done].
Qed.

Lemma find_best_cover_used_bounds_witness :
  exists subset used,
    find_best_cover ticking_clock ["AT"; "CAT"; "TA"]%string (Counter_of "CATTA") 15%float
    = Some (subset, used) /\
    0 <= used <= sum_values (Counter_of "CATTA").
Proof.
  apply (find_best_cover_used_bounds ticking_clock ["AT"; "CAT"; "TA"]%string
           (Counter_of "CATTA") 15%float).
  reflexivity.
Defined.

(** X8 (anytime guarantee): whatever the clock does, [find_best_cover]
    reports at least as many letters as the greedy seed alone. *)
Theorem find_best_cover_at_least_seed clock words lc timeout :
  exists subset used,
    find_best_cover clock words lc timeout = Some (subset, used) /\
    (seed_result words lc).2 <= used.
Proof.
  unfold find_best_cover, find_best_cover_run, seed_result.
  set (s1 := greedy_seed (sorted_by_len_desc words) (initial_state words lc)).
  destruct (search_rule clock (PrimFloat.add (clock 0%nat) timeout)
              (sorted_by_len_desc words) (initial_state words lc)
              (fun _ _ _ _ => True) (fun u _ _ => best_used s1 <= u))
    as (s & -> & _ & HB); try done.
  - intros. lia.
  - unfold BestOf. fold s1. lia.
  - by exists (best_subset s), (best_used s).
Qed.

(** X9 (every append is undone): when [find_best_cover] returns, the search
    stack [chosen0] holds exactly what the seed put on it. *)
Theorem find_best_cover_stack_restored clock words lc timeout :
  exists s,
    find_best_cover_run clock words lc timeout = Some s /\
    chosen s = seed_list words lc.
Proof.
  destruct (find_best_cover_run_returns clock words lc timeout) as (s & Hs & Hc & _).
  exists s. split; [done|]. rewrite Hc, greedy_seed_spec. unfold seed_list. simpl.
  by destruct (seed_word _ _).
Qed.

(** X10 (exhaustive search is optimal among the selections that contain the
    seed): when the deadline test never fires and the pool has no negative
    count, the number of letters returned is at least the total length of
    every selection made of the seed stack and a subsequence of the sorted
    candidates that fits the pool; and no run on the same candidates and
    pool, whatever its clock and timeout, reports more letters. *)
Theorem find_best_cover_exhaustive_optimal clock words lc timeout :
  (forall k, PrimFloat.ltb (PrimFloat.add (clock 0%nat) timeout) (clock k) = false) ->
  nonnegb lc = true ->
  exists subset used,
    find_best_cover clock words lc timeout = Some (subset, used) /\
    (forall l, l `sublist_of` sorted_by_len_desc words ->
               fits (seed_list words lc ++ l) lc ->
               sum_len (seed_list words lc ++ l) <= used) /\
    (forall clock' timeout' subset' used',
        find_best_cover clock' words lc timeout' = Some (subset', used') ->
        used' <= used).
Proof.
  intros Hnever Hlc. apply nonnegb_spec in Hlc.
  destruct (find_best_cover_run_returns clock words lc timeout) as (s & Hs & _).
  assert (Hopt : forall l, l `sublist_of` sorted_by_len_desc words ->
                           fits (seed_list words lc ++ l) lc ->
                           sum_len (seed_list words lc ++ l) <= best_used s).
  { intros l Hl Hfit.
    destruct (seeded_state_facts words lc Hlc) as (_ & Hu & Hn & Hcnt).
    unfold find_best_cover_run, search in Hs.
    destruct (build_rem_len_spec (sorted_by_len_desc words)) as (t & Ht & Htab).
    rewrite Ht in Hs. cbn [mbind option_bind] in Hs.
    rewrite sum_len_app, <- Hu.
    eapply (dfs_exhaustive _ _ _ _ Htab Hnever); [|exact Hn|exact Hs| |].
    - simpl. lia.
    - by rewrite drop_0.
    - intros ch. rewrite Hcnt. specialize (Hfit ch).
      rewrite occurrences_app in Hfit. lia. }
  exists (best_subset s), (best_used s). split; [|split; [exact Hopt|]].
  - unfold find_best_cover. by rewrite Hs.
  - intros clock' timeout' subset' used' Hr'.
    destruct (find_best_cover_summary clock' words lc timeout' Hlc)
      as (l & Hr & Hl & Hfit & _).
    rewrite Hr in Hr'. injection Hr' as <- <-. by apply Hopt.
Qed.

Lemma find_best_cover_exhaustive_optimal_witness :
  exists subset used,
    find_best_cover frozen_clock ["AT"; "CAT"; "TA"]%string (Counter_of "CATTA") 15%float
    = Some (subset, used) /\
    (forall l, l `sublist_of` sorted_by_len_desc ["AT"; "CAT"; "TA"]%string ->
               fits (seed_list ["AT"; "CAT"; "TA"]%string (Counter_of "CATTA") ++ l)
                    (Counter_of "CATTA") ->
               sum_len (seed_list ["AT"; "CAT"; "TA"]%string (Counter_of "CATTA") ++ l)
               <= used) /\
    (forall clock' timeout' subset' used',
        find_best_cover clock' ["AT"; "CAT"; "TA"]%string (Counter_of "CATTA") timeout'
        = Some (subset', used') ->
        used' <= used).
Proof.
  apply (find_best_cover_exhaustive_optimal frozen_clock ["AT"; "CAT"; "TA"]%string
           (Counter_of "CATTA") 15%float).
  - intros k. reflexivity.
  - reflexivity.
Defined.

(** The seed is forced into every selection the search considers, so even
    an exhaustive run can miss the best cover: ABC and DEF use all six
    letters and are found when offered alone, yet with ABCD among the
    candidates the run returns the seed ABCD alone. *)
Remark seed_can_block_the_optimum :
  find_best_cover frozen_clock ["ABC"; "DEF"]%string (Counter_of "ABCDEF") 15%float
  = Some (["ABC"; "DEF"]%string, 6) /\
  find_best_cover frozen_clock ["ABCD"; "ABC"; "DEF"]%string (Counter_of "ABCDEF") 15%float
  = Some (["ABCD"]%string, 4).
Proof. split; vm_compute; reflexivity. Qed.

(** X11 (the longest candidate always leads): on a well-formed input with
    at least one candidate, the subset returned starts with the first word
    of the sorted candidate list, and no candidate is longer than that
    word. *)
Theorem find_best_cover_starts_with_longest clock words lc timeout :
  well_formed words lc = true -> words <> [] ->
  exists w0 rest used,
    find_best_cover clock words lc timeout = Some (w0 :: rest, used) /\
    head (sorted_by_len_desc words) = Some w0 /\
    w0 ∈ words /\
    forall w, w ∈ words -> len w <= len w0.
Proof.
  intros Hwf Hne.
  destruct (sorted_by_len_desc words) as [|w0 tl] eqn:Ews.
  { pose proof (sorted_by_len_desc_perm words) as Hp. rewrite Ews in Hp.
    symmetry in Hp. by apply Permutation_nil_r in Hp. }
  assert (Hin : w0 ∈ words).
  { apply elem_of_sorted_by_len_desc. rewrite Ews. left. }
  assert (Hseed : seed_list words lc = [w0]).
  { unfold seed_list, seed_word. rewrite Ews. simpl.
    unfold well_formed in Hwf. apply andb_true_iff in Hwf as [_ Hall].
    rewrite forallb_forall in Hall.
    specialize (Hall w0 (proj1 (list_elem_of_In _ _) Hin)).
    apply andb_true_iff in Hall as [_ ->]. done. }
  destruct (find_best_cover_shape clock words lc timeout) as (l & used & Hr & _).
  rewrite Hseed in Hr. exists w0, l, used. repeat split; try done.
  intros w Hw. apply elem_of_sorted_by_len_desc in Hw. rewrite Ews in Hw.
  destruct (sorted_by_len_desc_stable words) as [Hs _]. rewrite Ews in Hs.
  apply StronglySorted_inv in Hs as [_ Hall].
  apply elem_of_cons in Hw as [->|Hw]; [lia|].
  rewrite Forall_forall in Hall. by apply Hall.
Qed.

Lemma find_best_cover_starts_with_longest_witness :
  exists w0 rest used,
    find_best_cover ticking_clock ["AT"; "CAT"; "TA"]%string (Counter_of "CATTA") 0%float
    = Some (w0 :: rest, used) /\
    head (sorted_by_len_desc ["AT"; "CAT"; "TA"]%string) = Some w0 /\
    w0 ∈ ["AT"; "CAT"; "TA"]%string /\
    forall w, w ∈ ["AT"; "CAT"; "TA"]%string -> len w <= len w0.
Proof.
  apply (find_best_cover_starts_with_longest ticking_clock ["AT"; "CAT"; "TA"]%string
           (Counter_of "CATTA") 0%float).
  - reflexivity.
  - discriminate.
Defined.

(** ** The entry point [solve] *)

(** [solve] runs the filter and the search on the pool of the upper-cased
    letters and returns the selection with the letters it leaves over. *)
Lemma solve_summary clock enchant_dict dictionary letters :
  let lc := Counter_of (upper letters) in
  let candidates := filter_words enchant_dict dictionary lc in
  exists l,
    solve clock enchant_dict dictionary letters
    = Some (seed_list candidates lc ++ l,
            len (upper letters) - sum_len (seed_list candidates lc ++ l)) /\
    (forall w, w ∈ seed_list candidates lc ++ l -> w ∈ candidates) /\
    fits (seed_list candidates lc ++ l) lc /\
    sum_len (seed_list candidates lc ++ l) <= len (upper letters).
Proof.
  intros lc candidates.
  destruct (find_best_cover_summary clock candidates lc TIMEOUT_SEC
              (Counter_of_nonneg (upper letters))) as (l & Hr & Hl & Hfit & Hle).
  exists l. unfold solve. fold lc. fold candidates. rewrite Hr.
  cbn [mbind option_bind fst snd]. repeat split; [|done|].
  - intros w Hw. apply elem_of_app in Hw as [Hw|Hw].
    + by apply seed_list_elem_of in Hw.
    + apply elem_of_sorted_by_len_desc. by eapply elem_of_sublist.
  - subst lc. by rewrite sum_values_Counter_of in Hle.
Qed.

(** X12 (letters left over): whenever [solve] returns, the count it returns
    is the number of upper-cased letters minus the total length of the
    words returned, and it lies between 0 and that number of letters. *)
Theorem solve_unused clock enchant_dict dictionary letters subset unused :
  solve clock enchant_dict dictionary letters = Some (subset, unused) ->
  unused = len (upper letters) - sum_len subset /\
  0 <= unused <= len (upper letters).
Proof.
  intros Hsolve.
  destruct (solve_summary clock enchant_dict dictionary letters)
    as (l & Hr & _ & _ & Hle).
  rewrite Hr in Hsolve. injection Hsolve as <- <-. split; [done|].
  pose proof (sum_len_nonneg
    (seed_list (filter_words enchant_dict dictionary (Counter_of (upper letters)))
               (Counter_of (upper letters)) ++ l)).
  lia.
Qed.

Lemma solve_unused_witness :
  solve frozen_clock None ["cat"; "AT"; "TAB"; "COT"]%string "tacos"
  = Some (["COT"]%string, 2) /\
  2 = len (upper "tacos") - sum_len ["COT"]%string /\
  0 <= 2 <= len (upper "tacos").
Proof.
  assert (H : solve frozen_clock None ["cat"; "AT"; "TAB"; "COT"]%string "tacos"
              = Some (["COT"]%string, 2)) by (vm_compute; reflexivity).
  split; [exact H|].
  exact (solve_unused frozen_clock None ["cat"; "AT"; "TAB"; "COT"]%string "tacos"
           ["COT"]%string 2 H).
Defined.

(** X13 (every word of the answer is a legal candidate): each word [solve]
    returns is in the dictionary, has at least two letters, is on the
    two-letter whitelist if it has exactly two, passes the spell checker,
    and can be built from the upper-cased letters. *)
Theorem solve_words_are_legal clock enchant_dict dictionary letters :
  exists subset unused,
    solve clock enchant_dict dictionary letters = Some (subset, unused) /\
    forall w, w ∈ subset ->
      w ∈ dictionary /\ 2 <= len w /\ (len w = 2 -> w ∈ ALLOWED_TWO_LETTERS) /\
      buildable w (Counter_of (upper letters)) /\
      is_valid_word enchant_dict w = true.
Proof.
  destruct (solve_summary clock enchant_dict dictionary letters)
    as (l & Hr & Hin & _ & _).
  eexists _, _. split; [exact Hr|]. intros w Hw.
  apply Hin in Hw. rewrite filter_words_filter in Hw.
  apply list_elem_of_In, filter_In in Hw as [Hd Hw].
  apply passes_filter_spec in Hw. split; [by apply list_elem_of_In|done].
Qed.

(** X14 (each letter is used at most as often as it was given): over all
    the words [solve] returns, no letter occurs more often than in the
    upper-cased letters passed. *)
Theorem solve_within_letters clock enchant_dict dictionary letters :
  exists subset unused,
    solve clock enchant_dict dictionary letters = Some (subset, unused) /\
    forall ch, occurrences ch subset <= occ ch (upper letters).
Proof.
  destruct (solve_summary clock enchant_dict dictionary letters)
    as (l & Hr & _ & Hfit & _).
  eexists _, _. split; [exact Hr|]. intros ch.
  rewrite <- count_of_Counter_of. apply Hfit.
Qed.

(** X16 (racks too short for any word): when the upper-cased letters are
    fewer than two, [filter_words] keeps no candidate whatever the
    dictionary holds, and whenever [solve] returns, it returns no word and
    reports every upper-cased letter as unused. *)
Theorem solve_short_rack clock enchant_dict dictionary letters :
  len (upper letters) < 2 ->
  filter_words enchant_dict dictionary (Counter_of (upper letters)) = [] /\
  forall r, solve clock enchant_dict dictionary letters = Some r ->
            r = ([], len (upper letters)).
Proof.
  intros Hshort.
  assert (Hf : filter_words enchant_dict dictionary (Counter_of (upper letters)) = []).
  { apply filter_words_small_pool; [apply Counter_of_nonneg|].
    by rewrite sum_values_Counter_of. }
  split; [exact Hf|]. intros r. unfold solve. rewrite Hf, nothing_affordable.
  - cbn [mbind option_bind fst snd]. intros [= <-]. f_equal. lia.
  - intros w Hw. by apply elem_of_nil in Hw.
Qed.

Lemma solve_short_rack_witness :
  filter_words None ["A"; "AA"; "CAT"]%string (Counter_of (upper "a")) = [] /\
  forall r, solve frozen_clock None ["A"; "AA"; "CAT"]%string "a" = Some r ->
            r = ([], len (upper "a")).
Proof.
  apply (solve_short_rack frozen_clock None ["A"; "AA"; "CAT"]%string "a").
  reflexivity.
Defined.

(** ** Rendering a pool *)

Example run_pool_to_markdown :
  pool_to_markdown (Counter_of "TACOT") (Some (list_ascii_of_string "CAT"))
  = "~~A~~ ~~C~~ O ~~T~~ T"%string /\
  pool_to_markdown (Counter_of "") None = "-- none --"%string.
Proof. split; vm_compute; reflexivity. Qed.

Lemma insert_char_perm (c : ascii) (l : list ascii) : insert_char c l ≡ₚ c :: l.
Proof.
  induction l as [|x l IH]; [done|].
  simpl. destruct (N_of_ascii c <? N_of_ascii x)%N; [done|].
  rewrite IH. apply Permutation_swap.
Qed.

Lemma sorted_keys_perm (counts : gmap ascii Z) :
  sorted_keys counts ≡ₚ (map_to_list counts).*1.
Proof.
  unfold sorted_keys. induction ((map_to_list counts).*1) as [|c l IH]; [done|].
  simpl. rewrite insert_char_perm. by f_equiv.
Qed.

Lemma insert_char_sorted (c : ascii) (l : list ascii) :
  StronglySorted (fun a b => (N_of_ascii a <= N_of_ascii b)%N) l ->
  StronglySorted (fun a b => (N_of_ascii a <= N_of_ascii b)%N) (insert_char c l).
Proof.
  induction l as [|x l IH]; intros Hs; [repeat constructor|].
  simpl. destruct (N_of_ascii c <? N_of_ascii x)%N eqn:E.
  - apply N.ltb_lt in E. constructor; [done|].
    apply StronglySorted_inv in Hs as [_ Hx].
    constructor; [lia|]. eapply Forall_impl; [exact Hx|]. simpl. intros y Hy. lia.
  - apply N.ltb_ge in E. apply StronglySorted_inv in Hs as [Hs Hx].
    constructor; [by apply IH|]. rewrite insert_char_perm. by constructor.
Qed.

Lemma sorted_keys_sorted (counts : gmap ascii Z) :
  StronglySorted (fun a b => (N_of_ascii a <= N_of_ascii b)%N) (sorted_keys counts).
Proof.
  unfold sorted_keys. induction ((map_to_list counts).*1) as [|c l IH]; [constructor|].
  simpl. by apply insert_char_sorted.
Qed.

Lemma sorted_keys_NoDup (counts : gmap ascii Z) : NoDup (sorted_keys counts).
Proof. rewrite sorted_keys_perm. apply NoDup_fst_map_to_list. Qed.

Lemma elem_of_sorted_keys (counts : gmap ascii Z) (ch : ascii) :
  ch ∈ sorted_keys counts <-> is_Some (counts !! ch).
Proof.
  rewrite sorted_keys_perm, list_elem_of_fmap. split.
  - intros ([c v] & -> & Hin). apply elem_of_map_to_list in Hin. by exists v.
  - intros [v Hv]. exists (ch, v). split; [done|]. by apply elem_of_map_to_list.
Qed.

(** The inner loop strikes while strikes are left, then appends plain copies. *)
Lemma strike_loop_spec (ch : ascii) :
  forall n pieces strikes,
    0 <= count_of strikes ch ->
    let k := (n `min` Z.to_nat (count_of strikes ch))%nat in
    (strike_loop n ch pieces strikes).1
    = pieces ++ replicate k (struck ch) ++ replicate (n - k) (plain ch) /\
    forall c, c <> ch ->
              count_of (strike_loop n ch pieces strikes).2 c = count_of strikes c.
Proof.
  induction n as [|n IH]; intros pieces strikes Hs k.
  - simpl. by rewrite app_nil_r.
  - subst k. simpl strike_loop. case_bool_decide as E.
    + destruct (IH (pieces ++ [struck ch]) (<[ch := count_of strikes ch - 1]> strikes))
        as [Hp Hc].
      { rewrite count_of_insert, decide_True by done. lia. }
      rewrite Hp. rewrite count_of_insert, decide_True by done. split.
      * replace (S n `min` Z.to_nat (count_of strikes ch))%nat
          with (S (n `min` Z.to_nat (count_of strikes ch - 1)))%nat by lia.
        simpl. by rewrite <- app_assoc.
      * intros c Hne. rewrite Hc by done. rewrite count_of_insert.
        by rewrite decide_False by done.
    + assert (count_of strikes ch = 0) as E0.
      { destruct (decide (count_of strikes ch = 0)); [done|]. by destruct E. }
      destruct (IH (pieces ++ [plain ch]) strikes Hs) as [Hp Hc].
      rewrite Hp. split; [|done]. rewrite E0. simpl.
      rewrite Nat.min_0_r. simpl. rewrite <- app_assoc. simpl. by rewrite Nat.sub_0_r.
Qed.

Lemma pool_pieces_fold (pool : gmap ascii Z) (hl : list ascii) :
  forall l pieces strikes,
    NoDup l ->
    (forall c, c ∈ l -> count_of strikes c = Z.of_nat (count_occ Ascii.ascii_dec hl c)) ->
    (fold_left
       (fun '(pieces, strikes) ch =>
          strike_loop (Z.to_nat (count_of pool ch)) ch pieces strikes)
       l (pieces, strikes)).1
    = pieces ++ flat_map (letter_block pool hl) l.
Proof.
  induction l as [|c l IH]; intros pieces strikes Hnd Hst.
  - simpl. by rewrite app_nil_r.
  - apply NoDup_cons in Hnd as [Hc Hnd]. cbn [fold_left flat_map].
    destruct (strike_loop_spec c (Z.to_nat (count_of pool c)) pieces strikes)
      as [Hp Hrest].
    { rewrite Hst by left. lia. }
    destruct (strike_loop (Z.to_nat (count_of pool c)) c pieces strikes)
      as [pieces' strikes'] eqn:E.
    simpl in Hp, Hrest. rewrite IH; [|done|].
    + rewrite Hp, (Hst c) by left. rewrite Nat2Z.id.
      unfold letter_block. by rewrite <- !app_assoc.
    + intros c' Hc'. rewrite Hrest; [apply Hst; by right|].
      intros ->. done.
Qed.

Lemma pool_pieces_blocks (pool : gmap ascii Z) (highlight : option (list ascii)) :
  pool_pieces pool highlight
  = flat_map (letter_block pool (default [] highlight)) (sorted_keys pool).
Proof.
  unfold pool_pieces. rewrite (pool_pieces_fold pool (default [] highlight)).
  - done.
  - apply sorted_keys_NoDup.
  - intros c _. rewrite count_of_Counter_of. unfold occ.
    by rewrite list_ascii_of_string_of_list_ascii.
Qed.

(** X17 (what the rendering shows): the pieces [pool_to_markdown] joins are,
    for each key of the pool in ascending order of code point, as many
    copies of the letter as the pool counts of it (none for a count of
    zero or less), the first min(count, occurrences in the highlight) of
    them struck through and the others plain. *)
Theorem pool_pieces_spec (pool : gmap ascii Z) (highlight : option (list ascii)) :
  pool_pieces pool highlight
  = flat_map (letter_block pool (default [] highlight)) (sorted_keys pool) /\
  StronglySorted (fun a b => (N_of_ascii a <= N_of_ascii b)%N) (sorted_keys pool) /\
  NoDup (sorted_keys pool) /\
  forall ch, ch ∈ sorted_keys pool <-> is_Some (pool !! ch).
Proof.
  split; [apply pool_pieces_blocks|].
  split; [apply sorted_keys_sorted|].
  split; [apply sorted_keys_NoDup|apply elem_of_sorted_keys].
Qed.

Lemma letter_block_length (pool : gmap ascii Z) (hl : list ascii) (ch : ascii) :
  length (letter_block pool hl ch) = Z.to_nat (count_of pool ch).
Proof. unfold letter_block. rewrite length_app, !length_replicate. lia. Qed.

Lemma sum_counts_perm (f : ascii -> Z) (l1 l2 : list ascii) :
  l1 ≡ₚ l2 ->
  foldr (fun c acc => f c + acc) 0 l1 = foldr (fun c acc => f c + acc) 0 l2.
Proof. induction 1; simpl; lia. Qed.

(** Summing the counts over the keys gives [sum(pool.values())]. *)
Lemma sum_counts_keys (pool : gmap ascii Z) :
  foldr (fun c acc => count_of pool c + acc) 0 (sorted_keys pool) = sum_values pool.
Proof.
  rewrite (sum_counts_perm _ _ _ (sorted_keys_perm pool)).
  unfold sum_values. rewrite map_fold_foldr.
  assert (H : forall p, p ∈ map_to_list pool -> count_of pool p.1 = p.2).
  { intros [c v] Hin. apply elem_of_map_to_list in Hin. by apply count_of_Some. }
  induction (map_to_list pool) as [|[c v] l IH]; [done|].
  rewrite fmap_cons. cbn [foldr uncurry fst]. rewrite IH by (intros q Hq; apply H; by right).
  pose proof (H (c, v) ltac:(left)) as E. simpl in E. lia.
Qed.

(** X18 (one piece per letter of the pool): for a pool without negative
    counts, [pool_to_markdown] joins exactly as many pieces as the pool
    holds letters, whatever is highlighted. *)
Theorem pool_pieces_length (pool : gmap ascii Z) (highlight : option (list ascii)) :
  nonnegb pool = true ->
  Z.of_nat (length (pool_pieces pool highlight)) = sum_values pool.
Proof.
  intros Hn. apply nonnegb_spec in Hn.
  rewrite pool_pieces_blocks.
  rewrite <- sum_counts_keys.
  induction (sorted_keys pool) as [|c l IH]; [done|].
  cbn [flat_map foldr]. rewrite length_app, letter_block_length, Nat2Z.inj_add, IH.
  specialize (Hn c). lia.
Qed.

Lemma pool_pieces_length_witness :
  Z.of_nat (length (pool_pieces (Counter_of "TACOT") (Some (list_ascii_of_string "CAT"))))
  = sum_values (Counter_of "TACOT").
Proof.
  apply (pool_pieces_length (Counter_of "TACOT") (Some (list_ascii_of_string "CAT"))).
  reflexivity.
Defined.

(** X19 (nothing to show): when no letter of the pool has a positive
    count, in particular for the empty pool, [pool_to_markdown] returns
    the placeholder text. *)
Theorem pool_to_markdown_none (pool : gmap ascii Z) (highlight : option (list ascii)) :
  (forall ch, count_of pool ch <= 0) ->
  pool_to_markdown pool highlight = "-- none --"%string.
Proof.
  intros Hle. unfold pool_to_markdown.
  rewrite pool_pieces_blocks.
  assert (E : flat_map (letter_block pool (default [] highlight)) (sorted_keys pool) = []).
  { induction (sorted_keys pool) as [|c l IH]; [done|].
    cbn [flat_map]. rewrite IH, app_nil_r. unfold letter_block.
    specialize (Hle c). replace (Z.to_nat (count_of pool c)) with 0%nat by lia.
    done. }
  by rewrite E.
Qed.

Lemma pool_to_markdown_none_witness :
  pool_to_markdown (<["A"%char := 0]> (Counter_of "")) (Some (list_ascii_of_string "A"))
  = "-- none --"%string.
Proof.
  apply (pool_to_markdown_none (<["A"%char := 0]> (Counter_of ""))
           (Some (list_ascii_of_string "A"))).
  intros ch. rewrite count_of_insert. case_decide; [lia|].
  rewrite count_of_Counter_of. reflexivity.
Defined.

(** ** Only the order within a length class matters *)

Lemma for_range_with_args (a : list string)
    (body : nat -> nat -> state -> option state) :
  forall k i s,
    (forall k' i' s', (k' < k)%nat ->
                      body k' i' (with_args a s') = with_args a <$> body k' i' s') ->
    for_range body k i (with_args a s) = with_args a <$> for_range body k i s.
Proof.
  induction k as [|k IH]; intros i s H; [done|].
  simpl. rewrite H by lia. destruct (body k i s) as [s1|]; [|done].
  simpl. apply IH. intros. apply H. lia.
Qed.

(** The search never looks at the caller's list object: running it from a
    state that differs only there gives a result that differs only there. *)
Lemma dfs_with_args clock deadline words rem_len (a : list string) :
  forall m idx counts used s,
    dfs clock deadline words rem_len m idx counts used (with_args a s)
    = with_args a <$> dfs clock deadline words rem_len m idx counts used s.
Proof.
  induction m as [m IH] using lt_wf_ind.
  intros idx counts used s. rewrite !dfs_unfold. unfold time_time.
  cbn [reads with_args].
  destruct (PrimFloat.ltb deadline (clock (reads s))); [done|].
  destruct (rem_len !! idx) as [bound|]; [|done].
  cbn [mbind option_bind best_used tick with_args].
  destruct (used + bound <=? best_used s); [done|].
  change (tick (with_args a s)) with (with_args a (tick s)).
  replace (if best_used s <? used then record_best used (with_args a (tick s))
           else with_args a (tick s))
    with (with_args a (if best_used s <? used then record_best used (tick s) else tick s))
    by (by destruct (best_used s <? used)).
  change (best_used (tick s)) with (best_used s).
  apply for_range_with_args. intros k' i' t Hk'. unfold try_word.
  destruct (words !! i') as [w|]; [|done]. cbn [mbind option_bind].
  destruct (sum_values counts <? len w); [done|].
  destruct (affordable_keys (Counter_of w) counts); [|done].
  change (push w (with_args a t)) with (with_args a (push w t)).
  rewrite IH by lia.
  destruct (dfs clock deadline words rem_len k' (S i') _ _ (push w t)) as [s2|]; [|done].
  simpl. unfold pop. cbn [chosen with_args]. by destruct (chosen s2).
Qed.

(** X20 (only the order within a length class matters): two candidate
    lists that hold, for every length, the same words of that length in
    the same relative order give the same result; in particular sorting
    the candidates by descending length beforehand changes nothing. *)
Theorem find_best_cover_order_insensitive clock words words' lc timeout :
  (forall k, of_len k words = of_len k words') ->
  find_best_cover clock words lc timeout = find_best_cover clock words' lc timeout /\
  find_best_cover clock (sorted_by_len_desc words) lc timeout
  = find_best_cover clock words lc timeout.
Proof.
  assert (G : forall w1 w2, (forall k, of_len k w1 = of_len k w2) ->
    find_best_cover clock w1 lc timeout = find_best_cover clock w2 lc timeout).
  { intros w1 w2 Hk.
    assert (Hs : sorted_by_len_desc w2 = sorted_by_len_desc w1).
    { apply sorted_unique. destruct (sorted_by_len_desc_stable w2) as [Hs Hk2].
      split; [done|]. intros k. by rewrite Hk2, Hk. }
    unfold find_best_cover, find_best_cover_run, search. rewrite Hs.
    destruct (build_rem_len (sorted_by_len_desc w1)) as [t|]; [|done].
    cbn [mbind option_bind].
    change (initial_state w2 lc) with (with_args w2 (initial_state w1 lc)).
    set (s0 := initial_state w1 lc).
    assert (Hg : greedy_seed (sorted_by_len_desc w1) (with_args w2 s0)
                 = with_args w2 (greedy_seed (sorted_by_len_desc w1) s0)).
    { rewrite !greedy_seed_spec. cbn [letter_counts with_args].
      by destruct (seed_word _ _). }
    rewrite Hg. cbn [letter_counts best_used with_args]. rewrite dfs_with_args.
    by destruct (dfs _ _ _ _ _ _ _ _ (greedy_seed _ s0)). }
  intros Hk. split; [by apply G|].
  apply G. intros k. by destruct (sorted_by_len_desc_stable words) as [_ ->].
Qed.

Lemma find_best_cover_order_insensitive_witness :
  find_best_cover frozen_clock ["AT"; "CAT"; "TA"]%string (Counter_of "CATTA") 15%float
  = find_best_cover frozen_clock ["CAT"; "AT"; "TA"]%string (Counter_of "CATTA") 15%float /\
  find_best_cover frozen_clock (sorted_by_len_desc ["AT"; "CAT"; "TA"]%string)
                  (Counter_of "CATTA") 15%float
  = find_best_cover frozen_clock ["AT"; "CAT"; "TA"]%string (Counter_of "CATTA") 15%float.
Proof.
  apply (find_best_cover_order_insensitive frozen_clock ["AT"; "CAT"; "TA"]%string
           ["CAT"; "AT"; "TA"]%string (Counter_of "CATTA") 15%float).
  intros k. unfold of_len. rewrite !filter_cons, !filter_nil.
  repeat case_decide; try done; vm_compute in *; congruence.
Defined.

(** ** The recursion limit *)






